(** * The emoji data builder of BetterEmojiPicker

    A shallow embedding of [Scripts/build_emoji_data.py]: the codepoint
    decoder [hex_to_emoji] and the merge-and-filter loop [build_emoji_list],
    with the properties its specification states about them. *)

From stdpp Require Import gmap list strings sorting.
From Stdlib Require Import ZArith Lia.
From Stdlib Require Ascii String.

Local Open Scope Z_scope.

(** ** Python values *)

(** A Python [str] is a sequence of Unicode code points. *)
Abbreviation pystr := (list Z).

(** ASCII literals of the source, as code-point sequences. *)
Definition str (s : string) : pystr :=
  (λ a, Z.of_N (Ascii.N_of_ascii a)) <$> String.list_ascii_of_string s.

(** The one-character separators and markers the script mentions. *)
Definition dash : Z := 45.
Definition underscore : Z := 95.
Definition space : Z := 32.

(** The exceptions the transformation can raise on well-typed JSON input. *)
Inductive exn := ValueError | OverflowError.

Inductive result (A : Type) :=
  | Ok (a : A)
  | Raise (e : exn).
Arguments Ok {A} a.
Arguments Raise {A} e.

#[global] Instance result_ret : MRet result := λ A a, Ok a.
#[global] Instance result_bind : MBind result := λ A B k r,
  match r with
  | Ok a => k a
  | Raise e => Raise e
  end.

(** The value of a computation that returned, the empty list otherwise. *)
Definition get_ok {A} (r : result (list A)) : list A :=
  match r with
  | Ok l => l
  | Raise _ => []
  end.

(** A list comprehension whose element expression may raise: elements are
    evaluated left to right and the first exception ends the evaluation. *)
Fixpoint comprehension {A B} (f : A → result B) (l : list A) : result (list B) :=
  match l with
  | [] => Ok []
  | a :: l' => b ← f a; bs ← comprehension f l'; Ok (b :: bs)
  end.

(** [d.get(key, default)] on a field that may be absent. *)
Definition get {A} (field : option A) (dflt : A) : A :=
  match field with
  | Some v => v
  | None => dflt
  end.

(** ** String operations *)

(** [s.split(sep)] for a one-character separator: never the empty list. *)
Fixpoint split (sep : Z) (s : pystr) : list pystr :=
  match s with
  | [] => [[]]
  | c :: s' =>
      if c =? sep then [] :: split sep s'
      else match split sep s' with
           | seg :: segs => (c :: seg) :: segs
           | [] => [[c]]
           end
  end.

(** [s.startswith(prefix)]. *)
Fixpoint startswith (s prefix : pystr) {struct prefix} : bool :=
  match prefix, s with
  | [], _ => true
  | _ :: _, [] => false
  | p :: prefix', c :: s' => (c =? p) && startswith s' prefix'
  end.

(** [needle in haystack] on strings: [needle] occurs at some offset. *)
Fixpoint contains (haystack needle : pystr) : bool :=
  startswith haystack needle ||
  match haystack with
  | [] => false
  | _ :: haystack' => contains haystack' needle
  end.

(** [s.replace(old, new)] for one-character [old] and [new]. *)
Definition replace (old new : Z) (s : pystr) : pystr :=
  (λ c, if c =? old then new else c) <$> s.

(** [chr(i)]: a one-character string; [OverflowError] when [i] does not fit
    a C int, [ValueError] when it is outside [range(0x110000)]. *)
Definition chr (i : Z) : result pystr :=
  if (i <? - 2 ^ 31) || (2 ^ 31 <=? i) then Raise OverflowError
  else if (i <? 0) || (0x110000 <=? i) then Raise ValueError
  else Ok [i].

(** ** Plain hexadecimal numerals *)

Definition hex_digit (c : Z) : option Z :=
  if (48 <=? c) && (c <=? 57) then Some (c - 48)
  else if (65 <=? c) && (c <=? 70) then Some (c - 55)
  else if (97 <=? c) && (c <=? 102) then Some (c - 87)
  else None.

Definition is_hex_digit (c : Z) : bool :=
  match hex_digit c with Some _ => true | None => false end.

(** A non-empty string of the digits 0-9, A-F, a-f. *)
Definition is_hex (s : pystr) : bool :=
  match s with
  | [] => false
  | _ => forallb is_hex_digit s
  end.

(** Positional value of a digit string, most significant digit first. *)
Definition hex_value (s : pystr) : Z :=
  fold_left (λ acc c, 16 * acc + get (hex_digit c) 0) s 0.

(** ASCII case folding: A-Z to a-z, everything else unchanged. *)
Definition ascii_lower (c : Z) : Z :=
  if (65 <=? c) && (c <=? 90) then c + 32 else c.

Definition is_ascii (c : Z) : bool := (0 <=? c) && (c <? 128).

(** ** Records *)

(** One object of the primary source (emoji-data); every key may be absent. *)
Module Raw.
Record t := mk {
  has_img_apple : option bool;
  unified : option pystr;
  short_names : option (list pystr);
  name : option pystr;
  category : option pystr;
  sort_order : option Z
}.
End Raw.

(** One object of the output array. *)
Module Out.
Record t := mk {
  emoji : pystr;
  name : pystr;
  keywords : list pystr;
  category : pystr;
  sortOrder : Z
}.
End Out.

(** The two accumulators of the main loop. *)
Record state := mk_state {
  emojis : list Out.t;
  seen_emojis : gset pystr
}.

(** The five modifier literals of the skin-tone test, in source order. *)
Definition skin_tone_modifiers : list pystr :=
  str <$> ["1F3FB"; "1F3FC"; "1F3FD"; "1F3FE"; "1F3FF"]%string.

(** [any(mod in unified for mod in [...])] (line 104). *)
Definition has_skin_tone (unified : pystr) : bool :=
  existsb (contains unified) skin_tone_modifiers.

(** [except (ValueError, OverflowError)] (line 110). *)
Definition handled (e : exn) : bool :=
  match e with
  | ValueError => true
  | OverflowError => true
  end.

Section Pipeline.

(** The two builtins whose full definition lives in the interpreter:
    [str.lower] (Unicode case mapping) and [int(s, 16)] ([None] stands
    for its [ValueError]). *)
Variable lower : pystr → pystr.
Variable int16 : pystr → option Z.

(** *** The codepoint decoder (lines 44-56) *)

Definition hex_to_emoji (unified : pystr) : result pystr :=
  let codepoints := split dash unified in
  chars ← comprehension
    (λ cp, match int16 cp with
           | Some i => chr i
           | None => Raise ValueError
           end) codepoints;
  Ok (concat chars).

(** *** The keyword merger (lines 119-142 of [build_emoji_list]) *)

(** [kw.lower().replace("_", " ")]. *)

Definition kw_clean (kw : pystr) : pystr :=
  replace underscore space (lower kw).

(** The body of the loop over [short_names] (lines 130-134). *)
Definition add_short_name (acc : list pystr * gset pystr) (kw : pystr)
  : list pystr * gset pystr :=
  let '(all_keywords, seen_keywords) := acc in
  let c := kw_clean kw in
  if bool_decide (c ∉ seen_keywords)
  then (all_keywords ++ [c], {[c]} ∪ seen_keywords)
  else acc.

(** The body of the loop over the mapping entry (lines 137-142). *)
Definition add_emojilib_keyword (acc : list pystr * gset pystr) (kw : pystr)
  : list pystr * gset pystr :=
  let '(all_keywords, seen_keywords) := acc in
  let c := kw_clean kw in
  if bool_decide (c ∉ seen_keywords)
     && negb (startswith kw (str ":"))
     && negb (startswith kw (str ";"))
  then (all_keywords ++ [c], {[c]} ∪ seen_keywords)
  else acc.

Definition merge_keywords (short_names emojilib_keywords : list pystr)
  : list pystr :=
  let acc := fold_left add_short_name short_names ([], ∅) in
  let rest :=
    if (1 <? length emojilib_keywords)%nat
    then drop 1 emojilib_keywords else [] in
  (fold_left add_emojilib_keyword rest acc).1.

(** *** The main loop (lines 89-157) *)

(** The output object of a record that passed the filters (lines 122-151). *)
Definition emoji_entry (emojilib_data : gmap pystr (list pystr))
    (entry : Raw.t) (emoji_char : pystr) : Out.t :=
  let short_names := get (Raw.short_names entry) [] in
  let emojilib_keywords := get (emojilib_data !! emoji_char) [] in
  {| Out.emoji := emoji_char;
     Out.name := lower (get (Raw.name entry) []);
     Out.keywords := merge_keywords short_names emojilib_keywords;
     Out.category := get (Raw.category entry) (str "Other");
     Out.sortOrder := get (Raw.sort_order entry) 9999 |}.

(** One iteration (lines 93-152); [Ok st] unchanged is a [continue]. *)
Definition loop_body (emojilib_data : gmap pystr (list pystr))
    (st : state) (entry : Raw.t) : result state :=
  if negb (get (Raw.has_img_apple entry) false) then Ok st else
  let unified := get (Raw.unified entry) [] in
  if has_skin_tone unified then Ok st else
  match hex_to_emoji unified with
  | Raise e => if handled e then Ok st else Raise e
  | Ok emoji_char =>
      if bool_decide (emoji_char ∈ seen_emojis st) then Ok st else
      Ok {| emojis := emojis st ++ [emoji_entry emojilib_data entry emoji_char];
            seen_emojis := {[emoji_char]} ∪ seen_emojis st |}
  end.

Fixpoint loop (emojilib_data : gmap pystr (list pystr))
    (raw_data : list Raw.t) (st : state) : result state :=
  match raw_data with
  | [] => Ok st
  | entry :: rest =>
      st' ← loop_body emojilib_data st entry;
      loop emojilib_data rest st'
  end.

Definition build_emoji_list (raw_data : list Raw.t)
    (emojilib_data : gmap pystr (list pystr)) : result (list Out.t) :=
  st ← loop emojilib_data raw_data {| emojis := []; seen_emojis := ∅ |};
  Ok (emojis st).

(** *** Reference notions used by the statements below *)

(** A segment fails to decode when it is no hexadecimal integer or its
    value is no code point. *)
Definition bad_segment (seg : pystr) : Prop :=
  int16 seg = None ∨ ∃ v, int16 seg = Some v ∧ ¬ (0 ≤ v < 0x110000).

(** The keyword merger as the specification words it, on lists only:
    append a normalized keyword unless it is already present; short names
    first, then the mapping entry without its first element and without
    the entries that start with a colon or semicolon. *)
Definition append_new (acc : list pystr) (c : pystr) : list pystr :=
  if bool_decide (c ∈ acc) then acc else acc ++ [c].

Definition is_emoticon (kw : pystr) : bool :=
  startswith kw (str ":") || startswith kw (str ";").

Definition keywords_spec (short_names : list pystr)
    (mapping_entry : option (list pystr)) : list pystr :=
  let primary := fold_left append_new (kw_clean <$> short_names) [] in
  match mapping_entry with
  | Some (_ :: ((_ :: _) as others)) =>
      fold_left append_new
        (kw_clean <$> filter (λ kw, is_emoticon kw = false) others) primary
  | _ => primary
  end.

(** The glyph of a record that passes the three per-record tests:
    rendered on the platform, no skin-tone literal, decodable. *)
Definition eligible_glyph (entry : Raw.t) : option pystr :=
  if get (Raw.has_img_apple entry) false then
    let unified := get (Raw.unified entry) [] in
    if has_skin_tone unified then None
    else match hex_to_emoji unified with
         | Ok emoji_char => Some emoji_char
         | Raise _ => None
         end
  else None.

(** Position [i] of the input contributes when its record is eligible and
    no earlier record of the input has the same glyph. *)
Definition contribution (raw_data : list Raw.t) (i : nat)
  : option (Raw.t * pystr) :=
  entry ← raw_data !! i;
  g ← eligible_glyph entry;
  if bool_decide (g ∈ omap eligible_glyph (take i raw_data))
  then None else Some (entry, g).

(** The input, in its order, restricted to the contributing positions. *)
Definition restricted (raw_data : list Raw.t) : list (Raw.t * pystr) :=
  omap (contribution raw_data) (seq 0 (length raw_data)).

(** The loop body without its exception plumbing. *)
Definition step (emojilib_data : gmap pystr (list pystr))
    (st : state) (entry : Raw.t) : state :=
  match eligible_glyph entry with
  | Some g =>
      if bool_decide (g ∈ seen_emojis st) then st
      else {| emojis := emojis st ++ [emoji_entry emojilib_data entry g];
              seen_emojis := {[g]} ∪ seen_emojis st |}
  | None => st
  end.

End Pipeline.

(** Reference behaviour of the two builtins on the inputs the data sources
    contain: ASCII case folding and plain hexadecimal numerals. *)
Definition plain_lower (s : pystr) : pystr := ascii_lower <$> s.
Definition plain_int16 (s : pystr) : option Z :=
  if is_hex s then Some (hex_value s) else None.

Definition grinning_raw : Raw.t :=
  {| Raw.has_img_apple := Some true;
     Raw.unified := Some (str "1F600");
     Raw.short_names := Some [str "grinning"];
     Raw.name := Some (str "GRINNING FACE");
     Raw.category := Some (str "Smileys & Emotion");
     Raw.sort_order := Some 1 |}.

(** A record with only the two keys the filters read. *)
Definition bare (flag : option bool) (unified : option pystr) : Raw.t :=
  {| Raw.has_img_apple := flag;
     Raw.unified := unified;
     Raw.short_names := None;
     Raw.name := None;
     Raw.category := None;
     Raw.sort_order := None |}.

Definition not_rendered_raw : Raw.t := bare (Some false) (Some (str "1F600")).
Definition no_flag_raw : Raw.t := bare None (Some (str "1F600")).
Definition no_unified_raw : Raw.t := bare (Some true) None.
Definition skin_tone_raw : Raw.t := bare (Some true) (Some (str "1F44B-1F3FF")).
Definition bad_hex_raw : Raw.t := bare (Some true) (Some (str "ZZZZ")).
Definition flag_raw : Raw.t := bare (Some true) (Some (str "1F1FA-1F1F8")).

(** A waving hand with the modifier U+1F3FB, its second segment written in
    lower-case hexadecimal digits. *)
Definition lowercase_skin_tone_raw : Raw.t :=
  bare (Some true) (Some (str "1F44B-1f3fb")).

Definition sample_raw_data : list Raw.t :=
  [grinning_raw; not_rendered_raw; skin_tone_raw; bad_hex_raw; no_flag_raw;
   flag_raw; no_unified_raw; grinning_raw].

Definition grinning_out : Out.t :=
  {| Out.emoji := [0x1F600];
     Out.name := str "grinning face";
     Out.keywords := [str "grinning"; str "happy"; str "joy"];
     Out.category := str "Smileys & Emotion";
     Out.sortOrder := 1 |}.

(** The skin-tone test read on segments: some dash-separated segment is one
    of the five literals. *)
Definition skin_tone_segment (unified : pystr) : Prop :=
  ∃ seg, seg ∈ split dash unified ∧ seg ∈ skin_tone_modifiers.

Definition grinning_lib : gmap pystr (list pystr) :=
  {[ [0x1F600] := [str "grinning_face"; str "happy"; str "joy"] ]}.

(** ** Further notions *)

(** [sep.join(parts)]. *)
Fixpoint join (sep : pystr) (parts : list pystr) : pystr :=
  match parts with
  | [] => []
  | [p] => p
  | p :: ((_ :: _) as parts') => p ++ sep ++ join sep parts'
  end.

(** The number of occurrences of a character, [s.count(c)]. *)
Definition count (c : Z) (s : pystr) : nat :=
  length (filter (λ d, d = c) s).

(** *** The category report of [main] (lines 178-182) *)

(** [categories[cat] = categories.get(cat, 0) + 1]. *)
Definition count_category (categories : gmap pystr Z) (e : Out.t)
  : gmap pystr Z :=
  let cat := Out.category e in
  <[cat := get (categories !! cat) 0 + 1]> categories.

(** The loop over the output that fills [categories]. *)
Definition count_categories (emojis : list Out.t) : gmap pystr Z :=
  fold_left count_category emojis ∅.

(** ** Strings *)

Lemma split_not_nil sep s : split sep s ≠ [].
Proof.
  destruct s as [|c s]; simpl; [done|].
  destruct (c =? sep); [done|]. by destruct (split sep s).
Qed.

Lemma split_no_sep sep s : sep ∉ s → split sep s = [s].
Proof.
  induction s as [|c s IH]; intros Hs; simpl; [done|].
  apply not_elem_of_cons in Hs as [Hc Hs].
  destruct (Z.eqb_spec c sep) as [->|_]; [done|]. by rewrite IH.
Qed.

Lemma split_app_sep sep s1 s2 :
  sep ∉ s1 → split sep (s1 ++ sep :: s2) = s1 :: split sep s2.
Proof.
  induction s1 as [|c s1 IH]; intros Hs; simpl.
  - by rewrite Z.eqb_refl.
  - apply not_elem_of_cons in Hs as [Hc Hs].
    destruct (Z.eqb_spec c sep) as [->|_]; [done|]. by rewrite IH.
Qed.

Lemma split_segments_no_sep sep s : Forall (λ seg, sep ∉ seg) (split sep s).
Proof.
  induction s as [|c s IH]; simpl.
  - repeat constructor. apply not_elem_of_nil.
  - destruct (Z.eqb_spec c sep) as [->|Hc].
    + constructor; [apply not_elem_of_nil | done].
    + destruct (split sep s) as [|seg segs]; inversion IH; subst.
      * repeat constructor. by intros ->%list_elem_of_singleton.
      * constructor; [|done]. apply not_elem_of_cons. split; [congruence | done].
Qed.

Lemma split_head_prefix sep s seg segs :
  split sep s = seg :: segs → ∃ b, s = seg ++ b.
Proof.
  revert seg segs. induction s as [|c s IH]; intros seg segs; simpl.
  - intros [= <- <-]. by exists [].
  - destruct (c =? sep); [intros [= <- <-]; by exists (c :: s)|].
    destruct (split sep s) as [|seg0 segs0] eqn:Hs; [by destruct (split_not_nil sep s)|].
    intros [= <- <-]. destruct (IH _ _ eq_refl) as [b ->]. by exists b.
Qed.

(** Every segment of a split occurs in the string. *)
Lemma split_segment_infix sep s seg :
  seg ∈ split sep s → ∃ a b, s = a ++ seg ++ b.
Proof.
  induction s as [|c s IH]; simpl.
  - intros ->%list_elem_of_singleton. by exists [], [].
  - destruct (c =? sep).
    + intros [->|Hin]%elem_of_cons; [by exists [], (c :: s)|].
      destruct (IH Hin) as (a & b & ->). by exists (c :: a), b.
    + destruct (split sep s) as [|seg0 segs0] eqn:Hs; [by destruct (split_not_nil sep s)|].
      intros [->|Hin]%elem_of_cons.
      * destruct (split_head_prefix _ _ _ _ Hs) as [b ->]. by exists [], b.
      * destruct IH as (a & b & ->); [by right|]. by exists (c :: a), b.
Qed.

Lemma startswith_spec s p : startswith s p = true ↔ ∃ t, s = p ++ t.
Proof.
  revert s. induction p as [|c p IH]; intros s; simpl.
  - split; [by exists s | done].
  - destruct s as [|d s]; simpl.
    + split; [done | by intros [t Ht]].
    + rewrite andb_true_iff, Z.eqb_eq, IH. split.
      * intros [-> [t ->]]. by exists t.
      * intros [t [= -> ->]]. eauto.
Qed.

Lemma contains_spec h n : contains h n = true ↔ ∃ a b, h = a ++ n ++ b.
Proof.
  induction h as [|c h IH]; simpl.
  - rewrite orb_false_r, startswith_spec. split.
    + intros [t Ht]. by exists [], t.
    + intros (a & b & Hab). destruct a; simpl in Hab; [by exists b | done].
  - rewrite orb_true_iff, startswith_spec, IH. split.
    + intros [[t Ht] | (a & b & ->)]; [by exists [], t | by exists (c :: a), b].
    + intros ([|c' a] & b & Hab); simpl in Hab; [left; by exists b|].
      injection Hab as -> ->. right. by exists a, b.
Qed.

Lemma hex_digit_range c d : hex_digit c = Some d → 0 ≤ d < 16.
Proof.
  unfold hex_digit. repeat case_match; intros [= <-]; lia.
Qed.

Lemma hex_value_nonneg s : 0 ≤ hex_value s.
Proof.
  unfold hex_value.
  assert (H : ∀ acc, 0 ≤ acc →
    0 ≤ fold_left (λ acc c, 16 * acc + get (hex_digit c) 0) s acc).
  { induction s as [|c s IH]; intros acc Hacc; simpl; [done|].
    apply IH. destruct (hex_digit c) as [d|] eqn:Hd; simpl; [|lia].
    apply hex_digit_range in Hd. lia. }
  by apply H.
Qed.

Lemma is_hex_no_dash s : is_hex s = true → dash ∉ s.
Proof.
  intros Hs Hin. assert (Hall : forallb is_hex_digit s = true).
  { destruct s; [done | exact Hs]. }
  rewrite forallb_forall in Hall. apply list_elem_of_In, Hall in Hin.
  by vm_compute in Hin.
Qed.

Lemma union_singleton_absorb (x : pystr) (X : gset pystr) :
  x ∈ X → {[x]} ∪ X = X.
Proof.
  intros Hx. apply set_eq. intros y.
  rewrite elem_of_union, elem_of_singleton. split; [|by right].
  by intros [->|?].
Qed.

Lemma has_skin_tone_spec unified :
  has_skin_tone unified = true ↔
  ∃ m a b, m ∈ skin_tone_modifiers ∧ unified = a ++ m ++ b.
Proof.
  unfold has_skin_tone. rewrite existsb_exists. split.
  - intros (m & Hm%list_elem_of_In & (a & b & ->)%contains_spec). eauto.
  - intros (m & a & b & Hm%list_elem_of_In & ->). exists m. split; [done|].
    apply contains_spec. eauto.
Qed.

(** ** The decoder *)

Lemma chr_valid i : 0 ≤ i < 0x110000 → chr i = Ok [i].
Proof.
  intros Hi. unfold chr.
  rewrite (proj2 (Z.ltb_ge _ _)), (proj2 (Z.leb_gt _ _)) by lia.
  rewrite (proj2 (Z.ltb_ge _ _)), (proj2 (Z.leb_gt _ _)) by lia.
  done.
Qed.

Lemma chr_invalid i : ¬ (0 ≤ i < 0x110000) → ∃ e, chr i = Raise e.
Proof.
  intros Hi. unfold chr.
  destruct ((i <? - 2 ^ 31) || (2 ^ 31 <=? i)); [by eexists|].
  destruct (Z.ltb_spec i 0); simpl; [by eexists|].
  destruct (Z.leb_spec 0x110000 i); [by eexists | lia].
Qed.

Lemma chr_length i c : chr i = Ok c → length c = 1%nat.
Proof. unfold chr. repeat case_match; by intros [= <-]. Qed.

Lemma comprehension_raise {A B} (f : A → result B) (l : list A) :
  (∃ e, comprehension f l = Raise e) ↔ ∃ a, a ∈ l ∧ ∃ e, f a = Raise e.
Proof.
  induction l as [|a l IH]; simpl.
  - split; [by intros [e ?] | by intros (a & Ha%elem_of_nil & _)].
  - setoid_rewrite elem_of_cons. destruct (f a) as [b|e] eqn:Hfa; simpl.
    + destruct (comprehension f l) as [bs|e]; simpl.
      * split; [by intros [e ?]|]. intros (a' & [->|Ha'] & e & He); [congruence|].
        destruct (proj2 IH) as [e' ?]; [by eauto | done].
      * split; [|by eauto]. intros _.
        destruct (proj1 IH) as (a' & ? & ?); [by eauto|]. by eauto.
    + split; [by eauto 6 | by eauto].
Qed.

Lemma comprehension_ok {A B} (f : A → result B) (l : list A) bs :
  comprehension f l = Ok bs → Forall2 (λ a b, f a = Ok b) l bs.
Proof.
  revert bs. induction l as [|a l IH]; intros bs; simpl.
  - intros [= <-]. constructor.
  - destruct (f a) as [b|] eqn:Hfa; simpl; [|done].
    destruct (comprehension f l) as [bs'|]; simpl; [|done].
    intros [= <-]. constructor; auto.
Qed.

Section Decoder.

Context (int16 : pystr → option Z).

Local Abbreviation hex_to_emoji := (hex_to_emoji int16).
Local Abbreviation bad_segment := (bad_segment int16).

Lemma hex_to_emoji_raise unified :
  (∃ e, hex_to_emoji unified = Raise e) ↔
  ∃ seg, seg ∈ split dash unified ∧ bad_segment seg.
Proof.
  unfold hex_to_emoji. simpl.
  destruct (comprehension _ (split dash unified)) as [chars|e] eqn:Hc; simpl.
  - split; [by intros [e ?]|]. intros (seg & Hseg & Hbad). exfalso.
    assert (∃ e, comprehension
      (λ cp, match int16 cp with Some i => chr i | None => Raise ValueError end)
      (split dash unified) = Raise e) as [e He]; [|congruence].
    apply comprehension_raise. exists seg. split; [done|].
    destruct Hbad as [->|(v & -> & Hv)]; [by eexists | by apply chr_invalid].
  - split; [|by eauto]. intros _.
    destruct (proj1 (comprehension_raise _ _) (ex_intro _ e Hc))
      as (seg & Hseg & e' & He').
    exists seg. split; [done|]. unfold bad_segment.
    destruct (int16 seg) as [v|]; [|by left]. right. exists v. split; [done|].
    intros Hv. by rewrite chr_valid in He'.
Qed.

(** A decoded glyph has one character per dash-separated segment. *)
Lemma hex_to_emoji_length unified g :
  hex_to_emoji unified = Ok g → length g = length (split dash unified).
Proof.
  unfold hex_to_emoji. simpl.
  destruct (comprehension _ _) as [chars|] eqn:Hc; simpl; [|done].
  intros [= <-]. apply comprehension_ok in Hc.
  induction Hc as [|seg c segs chars Hseg _ IH]; [done|]. simpl.
  rewrite length_app, IH. destruct (int16 seg); [|done].
  by rewrite (chr_length _ _ Hseg).
Qed.

Lemma hex_to_emoji_not_empty unified g : hex_to_emoji unified = Ok g → g ≠ [].
Proof.
  intros Hg%hex_to_emoji_length ->. simpl in Hg.
  by destruct (split dash unified) eqn:Hs; [apply split_not_nil in Hs|].
Qed.

End Decoder.

(** ** The keyword merger *)

Section Keywords.

Context (lower : pystr → pystr).

Local Abbreviation kw_clean := (kw_clean lower).
Local Abbreviation add_short_name := (add_short_name lower).
Local Abbreviation add_emojilib_keyword := (add_emojilib_keyword lower).
Local Abbreviation merge_keywords := (merge_keywords lower).

(** The set argument of both inner loops shadows the list. *)
Lemma append_new_set (l : list pystr) c :
  list_to_set (C := gset pystr) (append_new l c) = {[c]} ∪ list_to_set l.
Proof.
  unfold append_new. case_bool_decide as Hc.
  - symmetry. apply union_singleton_absorb. by apply elem_of_list_to_set.
  - rewrite list_to_set_app_L. simpl. rewrite (right_id_L ∅ (∪)).
    apply (comm_L (∪)).
Qed.

Lemma add_short_name_list (l : list pystr) kw :
  add_short_name (l, list_to_set l) kw
  = (append_new l (kw_clean kw), list_to_set (append_new l (kw_clean kw))).
Proof.
  unfold add_short_name. rewrite append_new_set. unfold append_new.
  destruct (decide (kw_clean kw ∈ l)) as [Hc|Hc].
  - rewrite bool_decide_eq_false_2, bool_decide_eq_true_2; [|done|].
    + f_equal. symmetry. apply union_singleton_absorb.
      by apply elem_of_list_to_set.
    + intros Hn. apply Hn. by apply elem_of_list_to_set.
  - rewrite bool_decide_eq_true_2, bool_decide_eq_false_2; [done..|].
    by rewrite elem_of_list_to_set.
Qed.

Lemma add_emojilib_keyword_list (l : list pystr) kw :
  add_emojilib_keyword (l, list_to_set l) kw
  = if is_emoticon kw then (l, list_to_set l)
    else (append_new l (kw_clean kw),
          list_to_set (append_new l (kw_clean kw))).
Proof.
  unfold add_emojilib_keyword, is_emoticon.
  destruct (startswith kw (str ":")), (startswith kw (str ";"));
    cbn [negb orb]; rewrite ?andb_false_r; try done.
  rewrite !andb_true_r. apply add_short_name_list.
Qed.

Lemma fold_add_short_name short_names (l : list pystr) :
  fold_left add_short_name short_names (l, list_to_set l)
  = (fold_left append_new (kw_clean <$> short_names) l,
     list_to_set (fold_left append_new (kw_clean <$> short_names) l)).
Proof.
  revert l. induction short_names as [|kw kws IH]; intros l; [done|].
  rewrite fmap_cons. cbn [fold_left]. by rewrite add_short_name_list, IH.
Qed.

Lemma fold_add_emojilib_keyword kws (l : list pystr) :
  fold_left add_emojilib_keyword kws (l, list_to_set l)
  = let l' := fold_left append_new
                (kw_clean <$> filter (λ kw, is_emoticon kw = false) kws) l in
    (l', list_to_set l').
Proof.
  revert l. induction kws as [|kw kws IH]; intros l; [done|].
  cbn [fold_left]. rewrite add_emojilib_keyword_list, filter_cons.
  destruct (is_emoticon kw).
  - rewrite decide_False by done. apply IH.
  - rewrite decide_True by done. rewrite fmap_cons. cbn [fold_left]. apply IH.
Qed.

(** The merger of the source computes the list the specification words. *)
Lemma merge_keywords_spec short_names emojilib_keywords :
  merge_keywords short_names emojilib_keywords
  = fold_left append_new
      (kw_clean <$> filter (λ kw, is_emoticon kw = false)
                      (drop 1 emojilib_keywords))
      (fold_left append_new (kw_clean <$> short_names) []).
Proof.
  unfold merge_keywords.
  change (∅ : gset pystr) with (list_to_set (C := gset pystr) (@nil pystr)).
  rewrite fold_add_short_name.
  assert ((if (1 <? length emojilib_keywords)%nat
           then drop 1 emojilib_keywords else []) = drop 1 emojilib_keywords)
    as -> by (by destruct emojilib_keywords as [|? [|? ?]]).
  by rewrite fold_add_emojilib_keyword.
Qed.

Lemma fold_append_new_elem cands (l : list pystr) x :
  x ∈ fold_left append_new cands l ↔ x ∈ l ∨ x ∈ cands.
Proof.
  revert l. induction cands as [|c cands IH]; intros l; simpl.
  - rewrite elem_of_nil. tauto.
  - rewrite IH, elem_of_cons. unfold append_new. case_bool_decide as Hc.
    + split; [tauto|]. intros [?|[->|?]]; tauto.
    + rewrite elem_of_app, list_elem_of_singleton. tauto.
Qed.

Lemma fold_append_new_NoDup cands (l : list pystr) :
  NoDup l → NoDup (fold_left append_new cands l).
Proof.
  revert l. induction cands as [|c cands IH]; intros l Hl; simpl; [done|].
  apply IH. unfold append_new. case_bool_decide as Hc; [done|].
  apply NoDup_app. split_and!; [done | | apply NoDup_singleton].
  by intros x Hx ->%list_elem_of_singleton.
Qed.

(** Every merged keyword is the normal form of a short name or of a
    mapping entry that is neither the first nor an emoticon alias. *)
Lemma merge_keywords_elem short_names emojilib_keywords x :
  x ∈ merge_keywords short_names emojilib_keywords ↔
  (∃ kw, kw ∈ short_names ∧ x = kw_clean kw)
  ∨ (∃ kw, kw ∈ drop 1 emojilib_keywords ∧ is_emoticon kw = false
           ∧ x = kw_clean kw).
Proof.
  rewrite merge_keywords_spec, !fold_append_new_elem, !list_elem_of_fmap.
  rewrite elem_of_nil. setoid_rewrite list_elem_of_filter. split.
  - intros [[[]|(kw & -> & Hkw)]|(kw & -> & Hemo & Hkw)]; [left | right]; eauto.
  - intros [(kw & Hkw & ->)|(kw & Hkw & Hemo & ->)]; [left; right | right]; eauto.
Qed.

End Keywords.

(** ** The main loop *)

Section Properties.

Context (lower : pystr → pystr) (int16 : pystr → option Z).
Context (emojilib_data : gmap pystr (list pystr)).

Local Abbreviation loop_body := (loop_body lower int16 emojilib_data).
Local Abbreviation loop := (loop lower int16 emojilib_data).
Local Abbreviation step := (step lower int16 emojilib_data).
Local Abbreviation eligible_glyph := (eligible_glyph int16).
Local Abbreviation init := {| emojis := []; seen_emojis := ∅ |}.

Lemma loop_body_step st entry : loop_body st entry = Ok (step st entry).
Proof.
  unfold loop_body, step, eligible_glyph.
  destruct (get (Raw.has_img_apple entry) false); simpl; [|done].
  destruct (has_skin_tone _); [done|].
  destruct (hex_to_emoji _ _) as [g|e]; [|by destruct e].
  by case_bool_decide.
Qed.

Lemma loop_fold raw st : loop raw st = Ok (fold_left step raw st).
Proof.
  revert st. induction raw as [|entry raw IH]; intros st; simpl; [done|].
  rewrite loop_body_step. simpl. apply IH.
Qed.

Lemma build_emoji_list_fold raw :
  build_emoji_list lower int16 raw emojilib_data
  = Ok (emojis (fold_left step raw init)).
Proof. unfold build_emoji_list. by rewrite loop_fold. Qed.

(** A record the loop body leaves the state unchanged on can be removed
    from the input. *)
Lemma build_emoji_list_skip pre entry post :
  step (fold_left step pre init) entry = fold_left step pre init →
  build_emoji_list lower int16 (pre ++ entry :: post) emojilib_data
  = build_emoji_list lower int16 (pre ++ post) emojilib_data.
Proof.
  intros Hskip. rewrite !build_emoji_list_fold, !fold_left_app. simpl.
  by rewrite Hskip.
Qed.

Lemma step_ineligible st entry : eligible_glyph entry = None → step st entry = st.
Proof. unfold step. by intros ->. Qed.

Lemma build_emoji_list_skip_ineligible pre entry post :
  eligible_glyph entry = None →
  build_emoji_list lower int16 (pre ++ entry :: post) emojilib_data
  = build_emoji_list lower int16 (pre ++ post) emojilib_data.
Proof. intros He. by apply build_emoji_list_skip, step_ineligible. Qed.

(** The output list only grows. *)
Lemma emojis_fold_mono raw st :
  emojis st ⊆ emojis (fold_left step raw st).
Proof.
  revert st. induction raw as [|entry raw IH]; intros st; simpl; [done|].
  etrans; [|apply IH]. unfold step. destruct (eligible_glyph entry); [|done].
  case_bool_decide; [done|]. simpl. intros x Hx. apply elem_of_app. by left.
Qed.

(** The set shadows the glyphs of the eligible records seen so far. *)
Lemma seen_emojis_fold raw :
  seen_emojis (fold_left step raw init) = list_to_set (omap eligible_glyph raw).
Proof.
  induction raw as [|entry raw IH] using rev_ind; [done|].
  rewrite fold_left_app, omap_app, list_to_set_app_L, <- IH. simpl.
  unfold step at 1. destruct (eligible_glyph entry) as [g|]; simpl.
  - rewrite (right_id_L ∅ (∪)). case_bool_decide; simpl; [|apply (comm_L (∪))].
    rewrite (comm_L (∪)). symmetry. by apply union_singleton_absorb.
  - by rewrite (right_id_L ∅ (∪)).
Qed.

Lemma contribution_app_l raw entry i :
  (i < length raw)%nat →
  contribution int16 (raw ++ [entry]) i = contribution int16 raw i.
Proof.
  intros Hi. unfold contribution.
  rewrite lookup_app_l by done. by rewrite take_app_le by lia.
Qed.

Lemma contribution_last raw entry :
  contribution int16 (raw ++ [entry]) (length raw)
  = g ← eligible_glyph entry;
    if bool_decide (g ∈ omap eligible_glyph raw) then None else Some (entry, g).
Proof.
  unfold contribution. rewrite list_lookup_middle by done. simpl.
  by rewrite take_app_length.
Qed.

Lemma restricted_elem raw entry g :
  (entry, g) ∈ restricted int16 raw →
  entry ∈ raw ∧ eligible_glyph entry = Some g.
Proof.
  unfold restricted. intros (i & _ & Hi)%list_elem_of_omap.
  unfold contribution in Hi.
  destruct (raw !! i) as [entry'|] eqn:Hlk; simpl in Hi; [|done].
  destruct (eligible_glyph entry') as [g'|] eqn:Hg; simpl in Hi; [|done].
  case_bool_decide; simplify_eq. split; [|done].
  by eapply list_elem_of_lookup_2.
Qed.

Lemma omap_ext_in {A B} (f g : A → option B) (l : list A) :
  (∀ x, x ∈ l → f x = g x) → omap f l = omap g l.
Proof.
  intros Hfg. apply list_omap_ext, Forall2_same_length_lookup.
  split; [done|]. intros i x y Hx Hy. simplify_eq.
  apply Hfg. by eapply list_elem_of_lookup_2.
Qed.

Lemma restricted_snoc raw entry :
  restricted int16 (raw ++ [entry])
  = restricted int16 raw
    ++ option_list (contribution int16 (raw ++ [entry]) (length raw)).
Proof.
  unfold restricted. rewrite length_app, Nat.add_1_r, seq_S, omap_app. simpl.
  f_equal. apply omap_ext_in. intros i [_ Hi]%elem_of_seq.
  apply contribution_app_l. lia.
Qed.


(** The output list is the restricted input, each record turned into its
    output object. *)
Lemma emojis_fold raw :
  emojis (fold_left step raw init)
  = (λ p, emoji_entry lower emojilib_data p.1 p.2) <$> restricted int16 raw.
Proof.
  induction raw as [|entry raw IH] using rev_ind; [done|].
  rewrite fold_left_app, restricted_snoc, contribution_last, fmap_app, <- IH.
  simpl. unfold step at 1.
  destruct (eligible_glyph entry) as [g|]; simpl; [|by rewrite app_nil_r].
  rewrite seen_emojis_fold.
  rewrite (bool_decide_ext _ (g ∈ omap eligible_glyph raw))
    by apply elem_of_list_to_set.
  case_bool_decide; simpl; [by rewrite app_nil_r | done].
Qed.

Lemma build_emoji_list_restricted raw :
  build_emoji_list lower int16 raw emojilib_data
  = Ok ((λ p, emoji_entry lower emojilib_data p.1 p.2) <$> restricted int16 raw).
Proof. by rewrite build_emoji_list_fold, emojis_fold. Qed.

(** The set holds exactly the glyphs of the output list, which are
    pairwise distinct. *)
Lemma seen_emojis_invariant raw :
  let st := fold_left step raw init in
  seen_emojis st = list_to_set (Out.emoji <$> emojis st)
  ∧ NoDup (Out.emoji <$> emojis st).
Proof.
  induction raw as [|entry raw [IHs IHn]] using rev_ind; simpl.
  { split; [done | constructor]. }
  rewrite fold_left_app. simpl.
  set (st := fold_left step raw init) in *. unfold step.
  destruct (eligible_glyph entry) as [g|]; [|done].
  case_bool_decide as Hg; [done|]. simpl.
  rewrite fmap_app, list_to_set_app_L. simpl. split.
  - by rewrite IHs, (right_id_L ∅ (∪)), (comm_L (∪)).
  - apply NoDup_app. split_and!; [done| |apply NoDup_singleton].
    intros x Hx ->%list_elem_of_singleton. apply Hg. rewrite IHs.
    by apply elem_of_list_to_set.
Qed.

End Properties.

(** ** The properties of the specification *)

Section Specification.

Context (lower : pystr → pystr) (int16 : pystr → option Z).

(** What the statements below rely on about the two builtins: on plain
    hexadecimal numerals [int(s, 16)] is the positional value, the empty
    string is no numeral, [str.lower] folds ASCII strings character by
    character, and its result holds no ASCII capital. *)
Hypothesis int16_hex : ∀ s, is_hex s = true → int16 s = Some (hex_value s).
Hypothesis int16_empty : int16 [] = None.
Hypothesis lower_ascii :
  ∀ s, forallb is_ascii s = true → lower s = ascii_lower <$> s.
Hypothesis lower_no_capital : ∀ s c, c ∈ lower s → ¬ (65 ≤ c ≤ 90).

Local Abbreviation hex_to_emoji := (hex_to_emoji int16).
Local Abbreviation build_emoji_list := (build_emoji_list lower int16).
Local Abbreviation eligible_glyph := (eligible_glyph int16).
Local Abbreviation bad_segment := (bad_segment int16).

Lemma hex_to_emoji_segment s :
  is_hex s = true → hex_value s < 0x110000 →
  (match int16 s with Some i => chr i | None => Raise ValueError end)
  = Ok [hex_value s].
Proof.
  intros Hs Hv. rewrite int16_hex by done. apply chr_valid.
  split; [apply hex_value_nonneg | done].
Qed.

Lemma hex_to_emoji_single s :
  is_hex s = true → hex_value s < 0x110000 →
  hex_to_emoji s = Ok [hex_value s].
Proof.
  intros Hs Hv. unfold hex_to_emoji.
  rewrite split_no_sep by by apply is_hex_no_dash.
  simpl. by rewrite hex_to_emoji_segment.
Qed.

Lemma hex_to_emoji_pair s1 s2 :
  is_hex s1 = true → hex_value s1 < 0x110000 →
  is_hex s2 = true → hex_value s2 < 0x110000 →
  hex_to_emoji (s1 ++ str "-" ++ s2) = Ok [hex_value s1; hex_value s2].
Proof.
  intros Hs1 Hv1 Hs2 Hv2. unfold hex_to_emoji.
  change (str "-" ++ s2) with (dash :: s2).
  rewrite split_app_sep by by apply is_hex_no_dash.
  rewrite split_no_sep by by apply is_hex_no_dash.
  simpl. by rewrite !hex_to_emoji_segment.
Qed.

(** C7. For a single hexadecimal codepoint in the valid range the decoder
    returns the one-character string with that code point, and for two such
    codepoints joined by a dash the two-character string of both, in
    order. *)
Theorem hex_to_emoji_decodes :
  (∀ s, is_hex s = true → hex_value s < 0x110000 →
        hex_to_emoji s = Ok [hex_value s])
  ∧ (∀ s1 s2,
        is_hex s1 = true → hex_value s1 < 0x110000 →
        is_hex s2 = true → hex_value s2 < 0x110000 →
        hex_to_emoji (s1 ++ str "-" ++ s2) = Ok [hex_value s1; hex_value s2]).
Proof. split; [apply hex_to_emoji_single | apply hex_to_emoji_pair]. Qed.

(** C6. The pipeline returns a list for every input; a record one of whose
    dash-separated segments is no hexadecimal integer, or is one outside
    the code-point range, is skipped: the output is the output for the
    input without that record, and the record is at none of the positions
    that contribute. *)
Theorem decode_failure_skips_record :
  (∀ raw_data emojilib_data,
      ∃ out, build_emoji_list raw_data emojilib_data = Ok out)
  ∧ (∀ pre entry post emojilib_data seg,
      seg ∈ split dash (get (Raw.unified entry) []) →
      bad_segment seg →
      build_emoji_list (pre ++ entry :: post) emojilib_data
      = build_emoji_list (pre ++ post) emojilib_data)
  ∧ (∀ raw_data entry seg g,
      seg ∈ split dash (get (Raw.unified entry) []) →
      bad_segment seg →
      (entry, g) ∉ restricted int16 raw_data).
Proof.
  assert (Hnone : ∀ entry seg,
    seg ∈ split dash (get (Raw.unified entry) []) →
    bad_segment seg → eligible_glyph entry = None).
  { intros entry seg Hseg Hbad. unfold eligible_glyph.
    destruct (get (Raw.has_img_apple entry) false); [|done].
    destruct (has_skin_tone _); [done|].
    destruct (proj2 (hex_to_emoji_raise int16 (get (Raw.unified entry) [])))
      as [e ->]; [by eauto | done]. }
  split_and!.
  - intros raw lib. eexists. apply build_emoji_list_fold.
  - intros pre entry post lib seg Hseg Hbad.
    apply build_emoji_list_skip_ineligible. by eapply Hnone.
  - intros raw entry seg g Hseg Hbad [_ Hg]%restricted_elem.
    by rewrite (Hnone _ _ Hseg Hbad) in Hg.
Qed.

(** C8. A record whose [has_img_apple] flag is false produces no output
    record, whatever its other fields: the output is the output for the
    input without it. *)
Theorem not_apple_rendered_excluded pre entry post emojilib_data :
  Raw.has_img_apple entry = Some false →
  build_emoji_list (pre ++ entry :: post) emojilib_data
  = build_emoji_list (pre ++ post) emojilib_data.
Proof.
  intros Hflag. apply build_emoji_list_skip_ineligible.
  unfold eligible_glyph. by rewrite Hflag.
Qed.

(** C10. A record without the [has_img_apple] key is excluded like one whose
    flag is false; a record without the [unified] key is excluded because
    the empty string does not decode; and the glyph of every output record
    is a non-empty string. *)
Theorem missing_keys_excluded :
  (∀ pre entry post emojilib_data,
      Raw.has_img_apple entry = None →
      build_emoji_list (pre ++ entry :: post) emojilib_data
      = build_emoji_list (pre ++ post) emojilib_data)
  ∧ (∀ pre entry post emojilib_data,
      Raw.unified entry = None →
      hex_to_emoji (get (Raw.unified entry) []) = Raise ValueError
      ∧ build_emoji_list (pre ++ entry :: post) emojilib_data
        = build_emoji_list (pre ++ post) emojilib_data)
  ∧ (∀ raw_data emojilib_data out o,
      build_emoji_list raw_data emojilib_data = Ok out →
      o ∈ out → Out.emoji o ≠ []).
Proof.
  split_and!.
  - intros pre entry post lib Hflag. apply build_emoji_list_skip_ineligible.
    unfold eligible_glyph. by rewrite Hflag.
  - intros pre entry post lib Hu.
    assert (Hraise : hex_to_emoji (get (Raw.unified entry) []) = Raise ValueError).
    { rewrite Hu. unfold hex_to_emoji. simpl. by rewrite int16_empty. }
    split; [done|]. apply build_emoji_list_skip_ineligible.
    unfold eligible_glyph. rewrite Hraise.
    by repeat case_match.
  - intros raw lib out o. rewrite build_emoji_list_restricted.
    intros [= <-] ([entry g] & -> & Hin)%list_elem_of_fmap. simpl.
    apply restricted_elem in Hin as [_ Hg].
    unfold eligible_glyph in Hg. repeat case_match; simplify_eq.
    by eapply hex_to_emoji_not_empty.
Qed.


(** C5. The glyphs of the output are pairwise distinct; of the records the
    loop decodes to one glyph the first yields the output record for it
    and every later one is dropped. *)
Theorem glyphs_unique_first_wins :
  (∀ raw_data emojilib_data,
      ∃ out, build_emoji_list raw_data emojilib_data = Ok out
             ∧ NoDup (Out.emoji <$> out))
  ∧ (∀ pre entry post emojilib_data g,
      eligible_glyph entry = Some g →
      g ∈ omap eligible_glyph pre →
      build_emoji_list (pre ++ entry :: post) emojilib_data
      = build_emoji_list (pre ++ post) emojilib_data)
  ∧ (∀ pre entry post emojilib_data g,
      eligible_glyph entry = Some g →
      g ∉ omap eligible_glyph pre →
      ∃ out, build_emoji_list (pre ++ entry :: post) emojilib_data = Ok out
             ∧ emoji_entry lower emojilib_data entry g ∈ out).
Proof.
  split_and!.
  - intros raw lib. eexists. split; [apply build_emoji_list_fold|].
    apply seen_emojis_invariant.
  - intros pre entry post lib g Hg Hpre. apply build_emoji_list_skip.
    unfold step at 1. rewrite Hg, seen_emojis_fold.
    by rewrite bool_decide_eq_true_2 by by apply elem_of_list_to_set.
  - intros pre entry post lib g Hg Hpre. eexists.
    split; [apply build_emoji_list_fold|].
    rewrite fold_left_app. simpl.
    apply (emojis_fold_mono lower int16 lib post). unfold step at 1.
    rewrite Hg, seen_emojis_fold.
    rewrite bool_decide_eq_false_2 by by rewrite elem_of_list_to_set.
    simpl. apply elem_of_app. right. by apply list_elem_of_singleton.
Qed.

(** C9. Each record that produces an output record passes its category and
    sort order on unchanged, and an absent category becomes "Other", an
    absent sort order 9999. *)
Theorem defaults_applied raw_data emojilib_data :
  ∃ out, build_emoji_list raw_data emojilib_data = Ok out
    ∧ Forall2 (λ (p : Raw.t * pystr) o,
        Out.emoji o = p.2
        ∧ Out.category o = match Raw.category p.1 with
                           | Some c => c
                           | None => str "Other"
                           end
        ∧ Out.sortOrder o = match Raw.sort_order p.1 with
                            | Some n => n
                            | None => 9999
                            end)
        (restricted int16 raw_data) out.
Proof.
  eexists. split; [apply build_emoji_list_restricted|].
  apply Forall2_fmap_r, Forall_Forall2_diag, Forall_forall.
  intros [entry g] _. simpl. split_and!; [done|..].
  - by destruct (Raw.category entry).
  - by destruct (Raw.sort_order entry).
Qed.

(** C2. The merged keyword list is the one the specification words: the
    normalized short names, each appended unless present, then the mapping
    entry without its first element, skipping entries that start with a
    colon or semicolon and normal forms already present. For the short
    names ["thumbs_up"] and the entry ["thumbs up sign", "like",
    "thumbs_up", "approve"] it is ["thumbs up", "like", "approve"]; an
    emoticon entry of the mapping adds nothing, ":D" is in no merged list,
    and no merged list repeats a keyword. *)
Theorem merge_keywords_correct :
  (∀ short_names mapping_entry,
      merge_keywords lower short_names (get mapping_entry [])
      = keywords_spec lower short_names mapping_entry)
  ∧ merge_keywords lower [str "thumbs_up"]
      [str "thumbs up sign"; str "like"; str "thumbs_up"; str "approve"]
    = [str "thumbs up"; str "like"; str "approve"]
  ∧ (∀ short_names first before kw after,
      is_emoticon kw = true →
      merge_keywords lower short_names (first :: before ++ kw :: after)
      = merge_keywords lower short_names (first :: before ++ after))
  ∧ (∀ short_names emojilib_keywords,
      str ":D" ∉ merge_keywords lower short_names emojilib_keywords)
  ∧ (∀ short_names emojilib_keywords,
      NoDup (merge_keywords lower short_names emojilib_keywords)).
Proof.
  split_and!; [| | | |intros sn lib; rewrite merge_keywords_spec;
                      apply fold_append_new_NoDup, fold_append_new_NoDup,
                            NoDup_nil_2].
  - intros sn entry. rewrite merge_keywords_spec. unfold keywords_spec.
    by destruct entry as [[|first [|second others]]|].
  - rewrite merge_keywords_spec. unfold kw_clean. simpl.
    rewrite !lower_ascii by reflexivity. by vm_compute.
  - intros sn first before kw after Hkw. rewrite !merge_keywords_spec.
    cbn [drop]. rewrite !drop_0, !filter_app, filter_cons, decide_False; [done|].
    by rewrite Hkw.
  - intros sn lib Hin.
    assert (∃ kw, str ":D" = kw_clean lower kw) as [kw Hkw].
    { apply merge_keywords_elem in Hin as [(kw & _ & ?)|(kw & _ & _ & ?)]; eauto. }
    assert (Hd : (68 : Z) ∈ kw_clean lower kw).
    { rewrite <- Hkw. by apply list_elem_of_In; vm_compute; auto. }
    unfold kw_clean, replace in Hd.
    apply list_elem_of_fmap in Hd as (c & Hc & Hin').
    apply lower_no_capital in Hin'.
    destruct (Z.eqb_spec c underscore); [done | lia].
Qed.

Lemma eligible_glyph_grinning : eligible_glyph grinning_raw = Some [0x1F600].
Proof.
  unfold eligible_glyph. simpl get.
  change (has_skin_tone (str "1F600")) with false. cbv iota.
  by rewrite hex_to_emoji_single by done.
Qed.

(** C1. For the one-record primary source (1F600, GRINNING FACE, short name
    grinning, category Smileys & Emotion, sort order 1, rendered) and the
    keyword mapping of its glyph to [grinning_face, happy, joy], the
    pipeline returns exactly the one record with the glyph, the name
    "grinning face", the keywords grinning, happy, joy, the category and
    the sort order 1. *)
Theorem grinning_end_to_end :
  build_emoji_list [grinning_raw] grinning_lib = Ok [grinning_out].
Proof.
  rewrite build_emoji_list_fold. simpl. unfold step.
  rewrite eligible_glyph_grinning.
  rewrite bool_decide_eq_false_2 by apply not_elem_of_empty.
  simpl. do 2 f_equal. unfold emoji_entry, grinning_out. f_equal.
  - simpl. by rewrite lower_ascii by reflexivity.
  - change (get (grinning_lib !! [0x1F600]) [])
      with [str "grinning_face"; str "happy"; str "joy"].
    rewrite merge_keywords_spec. unfold kw_clean. simpl.
    rewrite !lower_ascii by reflexivity. by vm_compute.
Qed.

(** The skin-tone test on text: it fires exactly when one of the five
    literals occurs in the unified string, so whenever a dash-separated
    segment is one of them, and a record it fires on is skipped whatever
    its [has_img_apple] flag. *)
Lemma skin_tone_excluded_by_substring :
  (∀ unified,
      has_skin_tone unified = true ↔
      ∃ m a b, m ∈ skin_tone_modifiers ∧ unified = a ++ m ++ b)
  ∧ (∀ pre entry post emojilib_data,
      has_skin_tone (get (Raw.unified entry) []) = true →
      build_emoji_list (pre ++ entry :: post) emojilib_data
      = build_emoji_list (pre ++ post) emojilib_data)
  ∧ (∀ unified, skin_tone_segment unified → has_skin_tone unified = true).
Proof.
  split_and!.
  - apply has_skin_tone_spec.
  - intros pre entry post lib Hskin. apply build_emoji_list_skip_ineligible.
    unfold eligible_glyph. rewrite Hskin. by case_match.
  - intros unified (seg & (a & b & ->)%split_segment_infix & Hseg).
    apply has_skin_tone_spec. eauto.
Qed.

(** C3. A record whose code-point sequence holds a skin-tone modifier is to
    be excluded, but the loop lets one through: in "1F44B-1f3fb" the second
    segment is the modifier U+1F3FB written in lower case, which [int]
    reads like the literal 1F3FB and the test on text (upper-case literals
    only) misses, so the record is emitted with the modifier in its
    glyph. *)
Theorem skin_tone_lowercase_emitted emojilib_data :
  str "1F3FB" ∈ skin_tone_modifiers
  ∧ int16 (str "1f3fb") = int16 (str "1F3FB")
  ∧ int16 (str "1f3fb") = Some 0x1F3FB
  ∧ has_skin_tone (str "1F44B-1f3fb") = false
  ∧ hex_to_emoji (str "1F44B-1f3fb") = Ok [0x1F44B; 0x1F3FB]
  ∧ ∃ o, build_emoji_list [lowercase_skin_tone_raw] emojilib_data = Ok [o]
         ∧ Out.emoji o = [0x1F44B; 0x1F3FB].
Proof.
  assert (Hdecode : hex_to_emoji (str "1F44B-1f3fb") = Ok [0x1F44B; 0x1F3FB]).
  { by apply (hex_to_emoji_pair (str "1F44B") (str "1f3fb")). }
  split_and!; [by left | by rewrite !int16_hex | by apply int16_hex | done
              | exact Hdecode |].
  eexists. split.
  - rewrite build_emoji_list_fold. simpl. unfold step, eligible_glyph.
    simpl get. change (has_skin_tone (str "1F44B-1f3fb")) with false. cbv iota.
    rewrite Hdecode.
    by rewrite bool_decide_eq_false_2 by apply not_elem_of_empty.
  - reflexivity.
Qed.

End Specification.

(** ** The reference builtins satisfy what the statements assume *)

Lemma plain_int16_hex s : is_hex s = true → plain_int16 s = Some (hex_value s).
Proof. unfold plain_int16. by intros ->. Qed.

Lemma plain_int16_empty : plain_int16 [] = None.
Proof. reflexivity. Qed.

Lemma plain_lower_ascii s :
  forallb is_ascii s = true → plain_lower s = ascii_lower <$> s.
Proof. reflexivity. Qed.

Lemma plain_lower_no_capital s c : c ∈ plain_lower s → ¬ (65 ≤ c ≤ 90).
Proof.
  unfold plain_lower. intros (d & -> & _)%list_elem_of_fmap. unfold ascii_lower.
  destruct (Z.leb_spec 65 d), (Z.leb_spec d 90); simpl; lia.
Qed.

(** The loop on a mixed input: the second, the fifth and the seventh record
    fail a filter, the third is a skin-tone variant, the fourth does not
    decode, and the last repeats the glyph of the first. *)
Example build_emoji_list_sample :
  Out.emoji <$> get_ok (build_emoji_list plain_lower plain_int16
                          sample_raw_data grinning_lib)
  = [[0x1F600]; [0x1F1FA; 0x1F1F8]].
Proof. by vm_compute. Qed.

(** The skin-tone test compares text: a modifier written in lower case is
    not recognised, and the record is emitted. *)
Example lowercase_modifier_passes :
  has_skin_tone (str "1f3fb") = false
  ∧ Out.emoji <$> get_ok (build_emoji_list plain_lower plain_int16
                            [bare (Some true) (Some (str "1f3fb"))] ∅)
    = [[0x1F3FB]].
Proof. by vm_compute. Qed.

(** ** Instances on concrete data *)

Lemma grinning_end_to_end_witness :
  build_emoji_list plain_lower plain_int16 [grinning_raw] grinning_lib
  = Ok [grinning_out].
Proof.
  apply grinning_end_to_end; [apply plain_int16_hex | apply plain_lower_ascii].
Defined.

Lemma merge_keywords_correct_witness :
  is_emoticon (str ":D") = true
  ∧ merge_keywords plain_lower [str "grinning"]
      (str "grinning_face" :: [str "happy"] ++ str ":D" :: [str "joy"])
    = merge_keywords plain_lower [str "grinning"]
        (str "grinning_face" :: [str "happy"] ++ [str "joy"]).
Proof.
  split; [reflexivity|].
  destruct (merge_keywords_correct plain_lower plain_lower_ascii
              plain_lower_no_capital) as (_ & _ & Hskip & _ & _).
  apply Hskip. reflexivity.
Defined.

Lemma skin_tone_lowercase_emitted_witness :
  has_skin_tone (str "1F44B-1f3fb") = false
  ∧ hex_to_emoji plain_int16 (str "1F44B-1f3fb") = Ok [0x1F44B; 0x1F3FB]
  ∧ ∃ o, build_emoji_list plain_lower plain_int16 [lowercase_skin_tone_raw]
           grinning_lib = Ok [o]
         ∧ Out.emoji o = [0x1F44B; 0x1F3FB].
Proof.
  destruct (skin_tone_lowercase_emitted plain_lower plain_int16
              plain_int16_hex grinning_lib)
    as (_ & _ & _ & Htest & Hdecode & Hout).
  split_and!; [exact Htest | exact Hdecode | exact Hout].
Defined.

Lemma glyphs_unique_first_wins_witness :
  eligible_glyph plain_int16 grinning_raw = Some [0x1F600]
  ∧ [0x1F600] ∈ omap (eligible_glyph plain_int16) [flag_raw; grinning_raw]
  ∧ build_emoji_list plain_lower plain_int16
      ([flag_raw; grinning_raw] ++ grinning_raw :: [bad_hex_raw]) grinning_lib
    = build_emoji_list plain_lower plain_int16
        ([flag_raw; grinning_raw] ++ [bad_hex_raw]) grinning_lib.
Proof.
  assert (Hin : [0x1F600] ∈ omap (eligible_glyph plain_int16)
                               [flag_raw; grinning_raw]).
  { apply list_elem_of_In. vm_compute. auto. }
  split_and!; [reflexivity | exact Hin |].
  destruct (glyphs_unique_first_wins plain_lower plain_int16)
    as (_ & Hdrop & _).
  apply (Hdrop _ _ _ _ [0x1F600]); [reflexivity | exact Hin].
Defined.

Lemma decode_failure_skips_record_witness :
  str "ZZZZ" ∈ split dash (get (Raw.unified bad_hex_raw) [])
  ∧ bad_segment plain_int16 (str "ZZZZ")
  ∧ build_emoji_list plain_lower plain_int16
      ([grinning_raw] ++ bad_hex_raw :: [flag_raw]) grinning_lib
    = build_emoji_list plain_lower plain_int16
        ([grinning_raw] ++ [flag_raw]) grinning_lib.
Proof.
  assert (Hin : str "ZZZZ" ∈ split dash (get (Raw.unified bad_hex_raw) [])).
  { apply list_elem_of_In. vm_compute. auto. }
  assert (Hbad : bad_segment plain_int16 (str "ZZZZ")) by (left; reflexivity).
  split_and!; [exact Hin | exact Hbad |].
  destruct (decode_failure_skips_record plain_lower plain_int16)
    as (_ & Hskip & _).
  apply (Hskip _ _ _ _ (str "ZZZZ")); [exact Hin | exact Hbad].
Defined.

Lemma hex_to_emoji_decodes_witness :
  (is_hex (str "1F600") = true ∧ hex_value (str "1F600") < 0x110000
   ∧ hex_to_emoji plain_int16 (str "1F600") = Ok [0x1F600])
  ∧ (is_hex (str "1F1FA") = true ∧ is_hex (str "1F1F8") = true
     ∧ hex_to_emoji plain_int16 (str "1F1FA" ++ str "-" ++ str "1F1F8")
       = Ok [0x1F1FA; 0x1F1F8]).
Proof.
  destruct (hex_to_emoji_decodes plain_int16 plain_int16_hex) as [Hone Htwo].
  split; split_and!; [reflexivity | reflexivity | | reflexivity | reflexivity |].
  - apply (Hone (str "1F600")); reflexivity.
  - apply (Htwo (str "1F1FA") (str "1F1F8")); reflexivity.
Defined.

Lemma not_apple_rendered_excluded_witness :
  Raw.has_img_apple not_rendered_raw = Some false
  ∧ build_emoji_list plain_lower plain_int16
      ([flag_raw] ++ not_rendered_raw :: [grinning_raw]) grinning_lib
    = build_emoji_list plain_lower plain_int16
        ([flag_raw] ++ [grinning_raw]) grinning_lib.
Proof.
  split; [reflexivity|].
  apply (not_apple_rendered_excluded plain_lower plain_int16). reflexivity.
Defined.

Lemma missing_keys_excluded_witness :
  (Raw.has_img_apple no_flag_raw = None
   ∧ build_emoji_list plain_lower plain_int16
       ([flag_raw] ++ no_flag_raw :: [grinning_raw]) grinning_lib
     = build_emoji_list plain_lower plain_int16
         ([flag_raw] ++ [grinning_raw]) grinning_lib)
  ∧ (Raw.unified no_unified_raw = None
     ∧ build_emoji_list plain_lower plain_int16
         ([flag_raw] ++ no_unified_raw :: [grinning_raw]) grinning_lib
       = build_emoji_list plain_lower plain_int16
           ([flag_raw] ++ [grinning_raw]) grinning_lib).
Proof.
  destruct (missing_keys_excluded plain_lower plain_int16 plain_int16_empty)
    as (Hflag & Hunified & _).
  split; (split; [reflexivity|]).
  - apply Hflag. reflexivity.
  - apply Hunified. reflexivity.
Defined.

(** The test reads the whole string, not its segments: it fires on
    "11F3FB", whose only segment is none of the five literals (and is no
    code point, so the record would not decode either). *)
Example skin_tone_test_on_text :
  has_skin_tone (str "11F3FB") = true
  ∧ split dash (str "11F3FB") = [str "11F3FB"]
  ∧ hex_value (str "11F3FB") = 0x11F3FB
  ∧ ¬ skin_tone_segment (str "11F3FB").
Proof.
  split_and!; [reflexivity..|].
  intros (seg & Hin & Hmod).
  apply list_elem_of_In in Hin, Hmod. vm_compute in Hin, Hmod.
  intuition (subst; discriminate).
Qed.

(** ** Further properties of the decoder *)

Lemma chr_ok i c : chr i = Ok c ↔ c = [i] ∧ 0 ≤ i < 0x110000.
Proof.
  split.
  - unfold chr. intros Hc.
    destruct ((i <? - 2 ^ 31) || (2 ^ 31 <=? i)); [done|].
    destruct (Z.ltb_spec i 0); simpl in Hc; [done|].
    destruct (Z.leb_spec 0x110000 i); simplify_eq. split; [done | lia].
  - intros [-> Hi]. by apply chr_valid.
Qed.

Lemma comprehension_ok_iff {A B} (f : A → result B) (l : list A) bs :
  comprehension f l = Ok bs ↔ Forall2 (λ a b, f a = Ok b) l bs.
Proof.
  split; [apply comprehension_ok|].
  induction 1 as [|a b l bs Hab _ IH]; simpl; [done|].
  by rewrite Hab, IH.
Qed.

Lemma comprehension_first_raise {A B} (f : A → result B) good a rest e :
  Forall (λ x, ∃ b, f x = Ok b) good → f a = Raise e →
  comprehension f (good ++ a :: rest) = Raise e.
Proof.
  intros Hgood Ha. induction Hgood as [|x good [b Hx] _ IH]; simpl.
  - by rewrite Ha.
  - by rewrite Hx, IH.
Qed.

Lemma split_length sep s : length (split sep s) = S (count sep s).
Proof.
  unfold count. induction s as [|c s IH]; simpl; [done|].
  rewrite filter_cons. destruct (Z.eqb_spec c sep) as [->|Hc].
  - rewrite decide_True by done. simpl. by rewrite IH.
  - rewrite decide_False by done.
    destruct (split sep s); simpl in *; [done | by rewrite <- IH].
Qed.

Lemma split_join sep segs :
  segs ≠ [] → Forall (λ seg, sep ∉ seg) segs →
  split sep (join [sep] segs) = segs.
Proof.
  intros Hne Hsegs. induction Hsegs as [|seg segs Hseg Hsegs IH]; [done|].
  destruct segs as [|seg' segs]; simpl.
  - by apply split_no_sep.
  - rewrite split_app_sep by done. f_equal. by apply IH.
Qed.

(** Splitting at a separator and joining with it gives the string back. *)
Lemma join_split sep s : join [sep] (split sep s) = s.
Proof.
  induction s as [|c s IH]; simpl; [done|].
  destruct (Z.eqb_spec c sep) as [->|Hc].
  - destruct (split sep s) as [|seg segs] eqn:Hs; [by destruct (split_not_nil sep s)|].
    change (join [sep] ([] :: seg :: segs)) with (sep :: join [sep] (seg :: segs)).
    by rewrite IH.
  - destruct (split sep s) as [|seg segs] eqn:Hs; [by destruct (split_not_nil sep s)|].
    subst s. by destruct segs.
Qed.

Section DecoderLaws.

Context (int16 : pystr → option Z).

Hypothesis int16_hex : ∀ s, is_hex s = true → int16 s = Some (hex_value s).

Local Abbreviation hex_to_emoji := (hex_to_emoji int16).

Lemma decode_segment_ok seg c :
  (match int16 seg with Some i => chr i | None => Raise ValueError end) = Ok [c]
  ↔ int16 seg = Some c ∧ 0 ≤ c < 0x110000.
Proof.
  destruct (int16 seg) as [v|]; [|by split; [|intros []]].
  rewrite chr_ok. split.
  - by intros [[= ->] ?].
  - by intros [[= ->] ?].
Qed.

Lemma hex_to_emoji_of_segments unified g :
  Forall2 (λ seg c, int16 seg = Some c ∧ 0 ≤ c < 0x110000)
          (split dash unified) g →
  hex_to_emoji unified = Ok g.
Proof.
  intros Hall. unfold hex_to_emoji. simpl.
  assert (Hc : comprehension
    (λ cp, match int16 cp with Some i => chr i | None => Raise ValueError end)
    (split dash unified) = Ok ((λ c, [c]) <$> g)).
  { apply comprehension_ok_iff, Forall2_fmap_r.
    eapply Forall2_impl; [exact Hall|]. intros seg c Hc. simpl.
    by apply decode_segment_ok. }
  rewrite Hc. simpl. f_equal. clear. induction g; simpl; by f_equal.
Qed.

Lemma hex_to_emoji_segments_values unified g :
  hex_to_emoji unified = Ok g →
  Forall2 (λ seg c, int16 seg = Some c ∧ 0 ≤ c < 0x110000)
          (split dash unified) g.
Proof.
  unfold hex_to_emoji. simpl.
  destruct (comprehension _ _) as [chars|] eqn:Hc; simpl; [|done].
  intros [= <-]. apply comprehension_ok in Hc.
  induction Hc as [|seg ch segs chars Hseg _ IH]; simpl; [constructor|].
  assert (Hch : ∃ v, ch = [v]).
  { destruct (int16 seg); [|done]. apply chr_ok in Hseg as [-> _]. eauto. }
  destruct Hch as [v ->]. simpl. constructor; [|done].
  by apply decode_segment_ok.
Qed.

(** X1. The decoder returns a glyph exactly when every dash-separated
    segment is a hexadecimal integer in the code-point range, and the
    glyph then has, position by position, the values of the segments. *)
Theorem hex_to_emoji_ok_iff unified g :
  hex_to_emoji unified = Ok g ↔
  Forall2 (λ seg c, int16 seg = Some c ∧ 0 ≤ c < 0x110000)
          (split dash unified) g.
Proof.
  split; [apply hex_to_emoji_segments_values | apply hex_to_emoji_of_segments].
Qed.

(** X2. Any number of plain hexadecimal code points joined by dashes
    decodes to the string of their values, in order. *)
Theorem hex_to_emoji_join segs :
  segs ≠ [] →
  Forall (λ seg, is_hex seg = true ∧ hex_value seg < 0x110000) segs →
  hex_to_emoji (join (str "-") segs) = Ok (hex_value <$> segs).
Proof.
  intros Hne Hsegs. apply hex_to_emoji_of_segments.
  change (str "-") with [dash]. rewrite split_join; [|done|].
  - apply Forall2_fmap_r, Forall_Forall2_diag.
    eapply Forall_impl; [exact Hsegs|]. intros seg [Hhex Hv]. simpl.
    split; [by apply int16_hex|]. split; [apply hex_value_nonneg | done].
  - eapply Forall_impl; [exact Hsegs|]. intros seg [Hhex _].
    by apply is_hex_no_dash.
Qed.

(** X3. The first segment that does not decode decides the exception, the
    segments after it are not looked at: [ValueError] when it is no
    hexadecimal integer or is outside the code-point range, but
    [OverflowError] when its value does not fit a C int. *)
Theorem hex_to_emoji_first_failure unified good seg rest :
  split dash unified = good ++ seg :: rest →
  Forall (λ s, ∃ v, int16 s = Some v ∧ 0 ≤ v < 0x110000) good →
  (int16 seg = None → hex_to_emoji unified = Raise ValueError)
  ∧ (∀ v, int16 seg = Some v → ¬ (0 ≤ v < 0x110000) →
       hex_to_emoji unified
       = Raise (if bool_decide (- 2 ^ 31 ≤ v < 2 ^ 31)
                then ValueError else OverflowError)).
Proof.
  intros Hsplit Hgood.
  assert (Hraise : ∀ e,
    (match int16 seg with Some i => chr i | None => Raise ValueError end)
    = Raise e → hex_to_emoji unified = Raise e).
  { intros e He. unfold hex_to_emoji. simpl. rewrite Hsplit.
    rewrite (comprehension_first_raise _ good seg rest e); [done| |done].
    eapply Forall_impl; [exact Hgood|]. intros s (v & -> & Hv). simpl.
    exists [v]. by apply chr_valid. }
  split.
  - intros Hnone. apply Hraise. by rewrite Hnone.
  - intros v Hv Hrange. apply Hraise. rewrite Hv. unfold chr.
    case_bool_decide as Hint.
    + rewrite (proj2 (Z.ltb_ge _ _)), (proj2 (Z.leb_gt _ _)) by lia. simpl.
      destruct (Z.ltb_spec v 0); simpl; [done|].
      destruct (Z.leb_spec 0x110000 v); [done | lia].
    + destruct (Z.ltb_spec v (- 2 ^ 31)); simpl; [done|].
      destruct (Z.leb_spec (2 ^ 31) v); [done | lia].
Qed.

(** X4. A decoded glyph has one character more than the unified string
    has dashes. *)
Theorem hex_to_emoji_glyph_length unified g :
  hex_to_emoji unified = Ok g → length g = S (count dash unified).
Proof.
  intros Hg. rewrite <- split_length. by apply (hex_to_emoji_length int16).
Qed.

End DecoderLaws.

(** ** Further properties of the keyword merger *)

Lemma replace_not_elem old new s : old ≠ new → old ∉ replace old new s.
Proof.
  intros Hne (c & Hc & _)%list_elem_of_fmap.
  destruct (Z.eqb_spec c old); congruence.
Qed.

Section KeywordLaws.

Context (lower : pystr → pystr).

Local Abbreviation kw_clean := (kw_clean lower).
Local Abbreviation merge_keywords := (merge_keywords lower).

(** The fold only appends, and only candidates that are new. *)
Lemma fold_append_new_app cands (l : list pystr) :
  ∃ extra, fold_left append_new cands l = l ++ extra
           ∧ (∀ x, x ∈ extra → (x ∉ l) ∧ x ∈ cands).
Proof.
  revert l. induction cands as [|c cands IH]; intros l; simpl.
  - exists []. split; [by rewrite app_nil_r|]. by intros x Hx%elem_of_nil.
  - destruct (IH (append_new l c)) as (extra & -> & Hextra).
    unfold append_new in *. case_bool_decide as Hc.
    + exists extra. split; [done|]. intros x Hx.
      destruct (Hextra x Hx) as [? ?]. split; [done | by right].
    + exists (c :: extra). split; [by rewrite <- app_assoc|].
      intros x [->|Hx]%elem_of_cons; [split; [done | by left]|].
      destruct (Hextra x Hx) as [Hnot ?]. split; [|by right].
      intros Hl. apply Hnot, elem_of_app. by left.
Qed.

Lemma fold_append_new_length cands (l : list pystr) :
  (length (fold_left append_new cands l) ≤ length l + length cands)%nat.
Proof.
  revert l. induction cands as [|c cands IH]; intros l; simpl; [lia|].
  etrans; [apply IH|]. unfold append_new. case_bool_decide; [lia|].
  rewrite length_app. simpl. lia.
Qed.

Lemma merge_keywords_nil short_names :
  merge_keywords short_names []
  = fold_left append_new (kw_clean <$> short_names) [].
Proof. by rewrite merge_keywords_spec. Qed.

(** X5. Short names have priority: the merged list begins with the
    keywords the short names alone give, whatever the mapping entry is, and
    what the mapping entry adds follows them. *)
Theorem merge_keywords_short_names_first short_names emojilib_keywords :
  ∃ added,
    merge_keywords short_names emojilib_keywords
    = merge_keywords short_names [] ++ added
    ∧ (∀ x, x ∈ added →
         (x ∉ merge_keywords short_names [])
         ∧ ∃ kw, kw ∈ drop 1 emojilib_keywords ∧ is_emoticon kw = false
                 ∧ x = kw_clean kw).
Proof.
  rewrite merge_keywords_nil, merge_keywords_spec.
  destruct (fold_append_new_app
    (kw_clean <$> filter (λ kw, is_emoticon kw = false) (drop 1 emojilib_keywords))
    (fold_left append_new (kw_clean <$> short_names) []))
    as (added & -> & Hadded).
  exists added. split; [done|]. intros x Hx.
  destruct (Hadded x Hx) as [Hnew (kw & -> & Hkw)%list_elem_of_fmap].
  apply list_elem_of_filter in Hkw as [Hemo Hkw]. eauto.
Qed.

(** X6. The first entry of the mapping never matters, so an entry of at
    most one element adds nothing to the short names. *)
Theorem merge_keywords_first_entry_ignored short_names :
  (∀ first first' others,
      merge_keywords short_names (first :: others)
      = merge_keywords short_names (first' :: others))
  ∧ (∀ emojilib_keywords,
      (length emojilib_keywords ≤ 1)%nat →
      merge_keywords short_names emojilib_keywords
      = merge_keywords short_names []).
Proof.
  split.
  - intros first first' others. by rewrite !merge_keywords_spec.
  - intros [|first [|second others]] Hlen; rewrite !merge_keywords_spec;
      [done | done | simpl in Hlen; lia].
Qed.

(** X7. No merged keyword contains an underscore. *)
Theorem merge_keywords_no_underscore short_names emojilib_keywords x :
  x ∈ merge_keywords short_names emojilib_keywords → underscore ∉ x.
Proof.
  intros [(kw & _ & ->)|(kw & _ & _ & ->)]%merge_keywords_elem;
    by apply replace_not_elem.
Qed.

(** X8. Nothing searchable is lost: the normal form of every short name and
    of every mapping entry after the first that is no emoticon alias is a
    merged keyword, and every merged keyword is one of these. *)
Theorem merge_keywords_members short_names emojilib_keywords :
  (∀ kw, kw ∈ short_names →
         kw_clean kw ∈ merge_keywords short_names emojilib_keywords)
  ∧ (∀ kw, kw ∈ drop 1 emojilib_keywords → is_emoticon kw = false →
           kw_clean kw ∈ merge_keywords short_names emojilib_keywords)
  ∧ (∀ x, x ∈ merge_keywords short_names emojilib_keywords →
          (∃ kw, kw ∈ short_names ∧ x = kw_clean kw)
          ∨ (∃ kw, kw ∈ drop 1 emojilib_keywords ∧ is_emoticon kw = false
                   ∧ x = kw_clean kw)).
Proof.
  split_and!.
  - intros kw Hkw. apply merge_keywords_elem. left. eauto.
  - intros kw Hkw Hemo. apply merge_keywords_elem. right. eauto.
  - intros x Hx. by apply merge_keywords_elem.
Qed.

(** X9. The merged list is never longer than the short names plus the
    elements of the mapping entry after its first (none for an empty or
    absent entry) that start with neither a colon nor a semicolon. *)
Theorem merge_keywords_length short_names emojilib_keywords :
  (length (merge_keywords short_names emojilib_keywords)
   ≤ length short_names
     + length (filter (λ kw, is_emoticon kw = false)
                 (drop 1 emojilib_keywords)))%nat.
Proof.
  rewrite merge_keywords_spec.
  etrans; [apply fold_append_new_length|].
  etrans; [apply Nat.add_le_mono_r, fold_append_new_length|].
  rewrite !length_fmap. simpl. lia.
Qed.

End KeywordLaws.

(** ** Further properties of the main loop *)

Lemma StronglySorted_sublist {A} (R : relation A) (l1 l2 : list A) :
  l1 `sublist_of` l2 → StronglySorted R l2 → StronglySorted R l1.
Proof.
  induction 1 as [|x l1 l2 Hsub IH|x l1 l2 Hsub IH]; intros Hsorted.
  - constructor.
  - apply StronglySorted_inv in Hsorted as [Hl2 Hx].
    constructor; [by apply IH|].
    apply Forall_forall. intros y Hy.
    rewrite Forall_forall in Hx. apply Hx.
    by eapply elem_of_sublist.
  - apply StronglySorted_inv in Hsorted as [Hl2 _]. by apply IH.
Qed.

Lemma filter_none {A} (P : A → Prop) `{!∀ x, Decision (P x)} (l : list A) :
  (∀ x, x ∈ l → ¬ P x) → filter P l = [].
Proof.
  induction l as [|x l IH]; intros Hl; [done|].
  rewrite filter_cons, decide_False by (apply Hl; by left).
  apply IH. intros y Hy. apply Hl. by right.
Qed.

Section PipelineLaws.

Context (lower : pystr → pystr) (int16 : pystr → option Z).

Hypothesis lower_no_capital : ∀ s c, c ∈ lower s → ¬ (65 ≤ c ≤ 90).

Local Abbreviation hex_to_emoji := (hex_to_emoji int16).
Local Abbreviation build_emoji_list := (build_emoji_list lower int16).
Local Abbreviation eligible_glyph := (eligible_glyph int16).
Local Abbreviation step := (step lower int16).
Local Abbreviation init := {| emojis := []; seen_emojis := ∅ |}.

Lemma eligible_glyph_spec entry g :
  eligible_glyph entry = Some g ↔
  Raw.has_img_apple entry = Some true
  ∧ has_skin_tone (get (Raw.unified entry) []) = false
  ∧ hex_to_emoji (get (Raw.unified entry) []) = Ok g.
Proof.
  unfold eligible_glyph. destruct (Raw.has_img_apple entry) as [[]|]; simpl.
  - destruct (has_skin_tone _); [by split; [|intros (_ & ? & _)]|].
    destruct (hex_to_emoji _) as [g'|e].
    + split; [by intros [= ->] | by intros (_ & _ & [= ->])].
    + split; [done | by intros (_ & _ & ?)].
  - by split; [|intros [? _]].
  - by split; [|intros [? _]].
Qed.

(** The records the loop selects are a subsequence of the input. *)
Lemma restricted_sublist raw : (restricted int16 raw).*1 `sublist_of` raw.
Proof.
  induction raw as [|entry raw IH] using rev_ind; [done|].
  rewrite restricted_snoc, contribution_last, fmap_app.
  apply sublist_app; [done|].
  destruct (eligible_glyph entry) as [g|]; simpl; [|apply sublist_nil_l].
  case_bool_decide; simpl; [apply sublist_nil_l | done].
Qed.

(** The loop started in any state: what the state holds stays, and of the
    records a fresh run appends those are appended whose glyph the state
    has not seen. *)
Lemma fold_step_from emojilib_data st raw :
  emojis (fold_left (step emojilib_data) raw st)
  = emojis st
    ++ filter (λ o, Out.emoji o ∉ seen_emojis st)
         (emojis (fold_left (step emojilib_data) raw init))
  ∧ seen_emojis (fold_left (step emojilib_data) raw st)
    = seen_emojis st ∪ seen_emojis (fold_left (step emojilib_data) raw init).
Proof.
  induction raw as [|entry raw [IHe IHs]] using rev_ind; simpl.
  { split; [by rewrite app_nil_r | by rewrite (right_id_L ∅ (∪))]. }
  rewrite !fold_left_app. simpl.
  set (s1 := fold_left (step emojilib_data) raw st) in *.
  set (s0 := fold_left (step emojilib_data) raw init) in *.
  unfold step. destruct (eligible_glyph entry) as [g|]; [|done].
  destruct (decide (g ∈ seen_emojis s0)) as [H0|H0].
  - rewrite (bool_decide_eq_true_2 (g ∈ seen_emojis s0)) by done.
    rewrite bool_decide_eq_true_2; [done|].
    rewrite IHs. apply elem_of_union. by right.
  - rewrite (bool_decide_eq_false_2 (g ∈ seen_emojis s0)) by done. simpl.
    rewrite filter_app, filter_cons, filter_nil. simpl.
    destruct (decide (g ∈ seen_emojis st)) as [Hst|Hst].
    + rewrite bool_decide_eq_true_2 by (rewrite IHs; apply elem_of_union; by left).
      rewrite decide_False by (intros Hn; by apply Hn).
      rewrite app_nil_r. split; [done|]. rewrite IHs.
      rewrite (assoc_L (∪)), (comm_L (∪) _ {[g]}).
      by rewrite union_singleton_absorb.
    + rewrite bool_decide_eq_false_2
        by (rewrite IHs, elem_of_union; by intros [?|?]).
      rewrite decide_True by done. simpl. split.
      * by rewrite IHe, <- app_assoc.
      * rewrite IHs. rewrite !(assoc_L (∪)). f_equal. apply (comm_L (∪)).
Qed.

(** X10. Concatenated inputs: the output for [a ++ b] is the output for [a]
    followed by those records of the output for [b] whose glyph the output
    for [a] does not have. *)
Theorem build_emoji_list_app a b emojilib_data :
  ∃ out_a out_b,
    build_emoji_list a emojilib_data = Ok out_a
    ∧ build_emoji_list b emojilib_data = Ok out_b
    ∧ build_emoji_list (a ++ b) emojilib_data
      = Ok (out_a ++ filter (λ o, Out.emoji o ∉ Out.emoji <$> out_a) out_b).
Proof.
  do 2 eexists. split_and!; [apply build_emoji_list_fold..|].
  rewrite build_emoji_list_fold, fold_left_app.
  destruct (fold_step_from emojilib_data
              (fold_left (step emojilib_data) a init) b) as [-> _].
  do 2 f_equal. apply list_filter_iff. intros o.
  destruct (seen_emojis_invariant lower int16 emojilib_data a) as [-> _].
  by rewrite elem_of_list_to_set.
Qed.

(** X11. Feeding the same input twice changes nothing: the output for
    [raw_data ++ raw_data] is the output for [raw_data]. *)
Theorem build_emoji_list_repeat raw_data emojilib_data :
  build_emoji_list (raw_data ++ raw_data) emojilib_data
  = build_emoji_list raw_data emojilib_data.
Proof.
  rewrite !build_emoji_list_fold, fold_left_app.
  destruct (fold_step_from emojilib_data
              (fold_left (step emojilib_data) raw_data init) raw_data)
    as [-> _].
  rewrite filter_none; [by rewrite app_nil_r|].
  intros o Ho Hnew. apply Hnew.
  destruct (seen_emojis_invariant lower int16 emojilib_data raw_data) as [-> _].
  apply elem_of_list_to_set, list_elem_of_fmap. eauto.
Qed.

(** X12. The glyphs of the output are exactly the glyphs of the input
    records that are rendered, hold no skin-tone literal and decode. *)
Theorem output_glyph_set raw_data emojilib_data :
  ∃ out, build_emoji_list raw_data emojilib_data = Ok out
    ∧ ∀ g, g ∈ Out.emoji <$> out ↔
        ∃ entry, entry ∈ raw_data
          ∧ Raw.has_img_apple entry = Some true
          ∧ has_skin_tone (get (Raw.unified entry) []) = false
          ∧ hex_to_emoji (get (Raw.unified entry) []) = Ok g.
Proof.
  eexists. split; [apply build_emoji_list_fold|]. intros g.
  rewrite <- (elem_of_list_to_set (C := gset pystr)).
  destruct (seen_emojis_invariant lower int16 emojilib_data raw_data) as [<- _].
  rewrite seen_emojis_fold, elem_of_list_to_set, list_elem_of_omap.
  by setoid_rewrite eligible_glyph_spec.
Qed.

(** X13. The output is made from a subsequence of the input: one output
    record per selected input record, in input order, so there are never
    more output records than input records. *)
Theorem output_from_subsequence raw_data emojilib_data :
  ∃ picks : list (Raw.t * pystr),
    build_emoji_list raw_data emojilib_data
    = Ok ((λ p, emoji_entry lower emojilib_data p.1 p.2) <$> picks)
    ∧ picks.*1 `sublist_of` raw_data
    ∧ Forall (λ p, eligible_glyph p.1 = Some p.2) picks
    ∧ (length picks ≤ length raw_data)%nat.
Proof.
  exists (restricted int16 raw_data). split_and!.
  - apply build_emoji_list_restricted.
  - apply restricted_sublist.
  - apply Forall_forall. intros [entry g] Hin. simpl.
    by apply restricted_elem in Hin as [_ ?].
  - rewrite <- (length_fmap fst). apply sublist_length, restricted_sublist.
Qed.

(** X14. When the input is in ascending sort order (9999 standing for an
    absent one), so is the output: the order the source data comes in is
    the order of the result. *)
Theorem sort_order_preserved raw_data emojilib_data :
  StronglySorted Z.le ((λ entry, get (Raw.sort_order entry) 9999) <$> raw_data) →
  ∃ out, build_emoji_list raw_data emojilib_data = Ok out
         ∧ StronglySorted Z.le (Out.sortOrder <$> out).
Proof.
  intros Hsorted. eexists. split; [apply build_emoji_list_restricted|].
  rewrite <- list_fmap_compose.
  eapply StronglySorted_sublist; [|exact Hsorted].
  rewrite (list_fmap_ext _ ((λ entry, get (Raw.sort_order entry) 9999) ∘ fst)
             (restricted int16 raw_data)) by done.
  rewrite list_fmap_compose. apply fmap_sublist, restricted_sublist.
Qed.

(** X15. The keyword mapping decides nothing but the keywords: with any two
    mappings the outputs have the same length and agree record by record
    on glyph, name, category and sort order. *)
Theorem mapping_only_affects_keywords raw_data emojilib_data emojilib_data' :
  ∃ out out',
    build_emoji_list raw_data emojilib_data = Ok out
    ∧ build_emoji_list raw_data emojilib_data' = Ok out'
    ∧ Forall2 (λ o o', Out.emoji o = Out.emoji o'
                       ∧ Out.name o = Out.name o'
                       ∧ Out.category o = Out.category o'
                       ∧ Out.sortOrder o = Out.sortOrder o') out out'.
Proof.
  do 2 eexists. split_and!; [apply build_emoji_list_restricted..|].
  apply Forall2_fmap, Forall_Forall2_diag, Forall_forall.
  by intros [entry g] _.
Qed.

(** X16. Names and keywords are lower case: no output record has an ASCII
    capital in its name or in one of its keywords. *)
Theorem output_lower_case raw_data emojilib_data out o :
  build_emoji_list raw_data emojilib_data = Ok out → o ∈ out →
  (∀ c, c ∈ Out.name o → ¬ (65 ≤ c ≤ 90))
  ∧ (∀ kw c, kw ∈ Out.keywords o → c ∈ kw → ¬ (65 ≤ c ≤ 90)).
Proof.
  rewrite build_emoji_list_restricted.
  intros [= <-] ([entry g] & -> & _)%list_elem_of_fmap. simpl. split.
  - intros c. apply lower_no_capital.
  - intros kw c Hkw Hc.
    assert (∃ kw', kw = kw_clean lower kw') as [kw' ->].
    { apply merge_keywords_elem in Hkw as [(kw' & _ & ?)|(kw' & _ & _ & ?)]; eauto. }
    unfold kw_clean, replace in Hc.
    apply list_elem_of_fmap in Hc as (d & -> & Hd).
    apply lower_no_capital in Hd.
    destruct (Z.eqb_spec d underscore); [unfold space; lia | lia].
Qed.

End PipelineLaws.

(** ** The skin-tone test on records that decode *)

Lemma split_app_no_sep sep m b :
  sep ∉ m →
  split sep (m ++ b)
  = match split sep b with
    | seg :: segs => (m ++ seg) :: segs
    | [] => [m]
    end.
Proof.
  induction m as [|c m IH]; intros Hm; simpl.
  - destruct (split sep b) eqn:Hb; [by destruct (split_not_nil sep b) | done].
  - apply not_elem_of_cons in Hm as [Hc Hm].
    destruct (Z.eqb_spec c sep) as [->|_]; [done|].
    rewrite IH by done. by destruct (split sep b).
Qed.

(** An occurrence of a text without the separator lies inside one
    segment. *)
Lemma infix_in_segment sep m a b :
  sep ∉ m → ∃ seg a' b', seg ∈ split sep (a ++ m ++ b) ∧ seg = a' ++ m ++ b'.
Proof.
  intros Hm. induction a as [|c a IH]; simpl.
  - rewrite split_app_no_sep by done.
    destruct (split sep b) as [|seg segs].
    + exists m, [], []. split; [by left | by rewrite app_nil_r].
    + exists (m ++ seg), [], seg. split; [by left | done].
  - destruct IH as (seg & a' & b' & Hin & ->).
    destruct (c =? sep).
    + exists (a' ++ m ++ b'), a', b'. split; [by right | done].
    + destruct (split sep (a ++ m ++ b)) as [|seg0 segs]; [by apply elem_of_nil in Hin|].
      apply elem_of_cons in Hin as [<-|Hin].
      * exists (c :: a' ++ m ++ b'), (c :: a'), b'. split; [by left | done].
      * exists (a' ++ m ++ b'), a', b'. split; [by right | done].
Qed.

Lemma hex_value_app s1 s2 :
  hex_value (s1 ++ s2)
  = hex_value s1 * 16 ^ Z.of_nat (length s2) + hex_value s2.
Proof.
  unfold hex_value. rewrite fold_left_app.
  generalize (fold_left (λ acc c, 16 * acc + get (hex_digit c) 0) s1 0) as v.
  induction s2 as [|c s2 IH]; intros v; simpl fold_left.
  - simpl. lia.
  - rewrite IH, (IH (16 * 0 + _)), length_cons, Nat2Z.inj_succ, Z.pow_succ_r by lia.
    lia.
Qed.

Lemma hex_value_modifier m :
  m ∈ skin_tone_modifiers → 0x1F3FB ≤ hex_value m ≤ 0x1F3FF ∧ length m = 5%nat.
Proof.
  intros Hm. apply list_elem_of_In in Hm. simpl in Hm.
  destruct Hm as [<-|[<-|[<-|[<-|[<-|[]]]]]]; vm_compute; intuition discriminate.
Qed.

Lemma modifier_no_dash m : m ∈ skin_tone_modifiers → dash ∉ m.
Proof.
  intros Hm. apply list_elem_of_In in Hm. simpl in Hm.
  destruct Hm as [<-|[<-|[<-|[<-|[<-|[]]]]]];
    intros Hd%list_elem_of_In; vm_compute in Hd; intuition discriminate.
Qed.

(** A numeral that contains a modifier literal and is a code point has the
    value of that literal. *)
Lemma hex_value_around_modifier a m b :
  m ∈ skin_tone_modifiers → hex_value (a ++ m ++ b) < 0x110000 →
  hex_value (a ++ m ++ b) = hex_value m.
Proof.
  intros Hm Hv. destruct (hex_value_modifier m Hm) as [Hrange Hlen].
  assert (Heq : hex_value (a ++ m ++ b)
    = (hex_value a * 16 ^ 5 + hex_value m) * 16 ^ Z.of_nat (length b)
      + hex_value b).
  { rewrite !hex_value_app, length_app, Hlen, Nat2Z.inj_add, Z.pow_add_r by lia.
    change (Z.of_nat 5) with 5. ring. }
  rewrite Heq in *. clear Heq.
  pose proof (hex_value_nonneg a) as Ha. pose proof (hex_value_nonneg b) as Hb.
  change (16 ^ 5) with 1048576 in *.
  destruct b as [|c b].
  - change (hex_value []) with 0 in *. simpl in *. lia.
  - exfalso. rewrite length_cons, Nat2Z.inj_succ, Z.pow_succ_r in Hv by lia.
    assert (0 < 16 ^ Z.of_nat (length b)) by (apply Z.pow_pos_nonneg; lia).
    nia.
Qed.

Section SkinToneLaws.

Context (int16 : pystr → option Z).

Hypothesis int16_hex : ∀ s, is_hex s = true → int16 s = Some (hex_value s).

(** X19. On records written in plain hexadecimal numerals the skin-tone
    test drops nothing else: when it fires on a unified string that
    decodes, the glyph holds one of the five modifier code points. *)
Theorem skin_tone_test_sound unified g :
  Forall (λ seg, is_hex seg = true) (split dash unified) →
  has_skin_tone unified = true →
  hex_to_emoji int16 unified = Ok g →
  ∃ c, c ∈ g ∧ 0x1F3FB ≤ c ≤ 0x1F3FF.
Proof.
  intros Hplain (m & a & b & Hm & ->)%has_skin_tone_spec Hg.
  destruct (infix_in_segment dash m a b (modifier_no_dash m Hm))
    as (seg & a' & b' & Hin & ->).
  apply (hex_to_emoji_segments_values int16) in Hg.
  rewrite Forall_forall in Hplain. specialize (Hplain _ Hin).
  apply list_elem_of_lookup in Hin as [i Hi].
  destruct (Forall2_lookup_l _ _ _ _ _ Hg Hi) as (c & Hc & Hseg & Hrange).
  rewrite int16_hex in Hseg by done. injection Hseg as <-.
  exists (hex_value (a' ++ m ++ b')). split; [by eapply list_elem_of_lookup_2|].
  rewrite hex_value_around_modifier by (done || lia).
  by apply hex_value_modifier.
Qed.

End SkinToneLaws.

(** ** The category report of [main] *)

(** X17. After the counting loop, a category is a key of [categories]
    exactly when some output record has it, and its value is the number of
    output records with that category. *)
Theorem count_categories_lookup emojis cat :
  count_categories emojis !! cat
  = let n := length (filter (λ e, Out.category e = cat) emojis) in
    if decide (n = 0%nat) then None else Some (Z.of_nat n).
Proof.
  induction emojis as [|e emojis IH] using rev_ind; [done|].
  unfold count_categories in *. rewrite fold_left_app. simpl.
  set (m := fold_left count_category emojis ∅) in *.
  unfold count_category. rewrite lookup_insert, filter_app, length_app.
  rewrite filter_cons, filter_nil. simpl in IH.
  destruct (decide (Out.category e = cat)) as [->|Hne]; simpl.
  - rewrite IH. rewrite (decide_False (P := (_ + 1 = 0)%nat)) by lia.
    case_decide as Hn; simpl; f_equal; lia.
  - rewrite IH. simpl. by rewrite Nat.add_0_r.
Qed.

(** X18. The counts of the report add up to the number of output
    records. *)
Theorem count_categories_total emojis :
  map_fold (λ _ n total, n + total) 0 (count_categories emojis)
  = Z.of_nat (length emojis).
Proof.
  assert (Hcomm : ∀ (j1 j2 : pystr) (z1 z2 y : Z),
    z1 + (z2 + y) = z2 + (z1 + y)) by (intros; lia).
  induction emojis as [|e emojis IH] using rev_ind; [done|].
  unfold count_categories in *. rewrite fold_left_app, length_app. simpl.
  set (m := fold_left count_category emojis ∅) in *.
  unfold count_category.
  destruct (m !! Out.category e) as [n|] eqn:Hcat; simpl.
  - rewrite <- insert_delete_eq.
    rewrite map_fold_insert_L; [|by intros; apply Hcomm|apply lookup_delete_eq].
    rewrite (map_fold_delete_L _ _ _ _ _ (λ j1 j2 z1 z2 y _ _ _, Hcomm j1 j2 z1 z2 y) Hcat) in IH.
    lia.
  - rewrite map_fold_insert_L; [|by intros; apply Hcomm|done]. lia.
Qed.

(** ** Further instances on concrete data *)

Lemma hex_to_emoji_join_witness :
  Forall (λ seg, is_hex seg = true ∧ hex_value seg < 0x110000)
         [str "1F468"; str "200D"; str "1F469"]
  ∧ hex_to_emoji plain_int16 (str "1F468-200D-1F469")
    = Ok [0x1F468; 0x200D; 0x1F469].
Proof.
  assert (Hsegs : Forall (λ seg, is_hex seg = true ∧ hex_value seg < 0x110000)
                         [str "1F468"; str "200D"; str "1F469"]).
  { repeat constructor. }
  split; [exact Hsegs|].
  apply (hex_to_emoji_join plain_int16 plain_int16_hex
           [str "1F468"; str "200D"; str "1F469"]); [discriminate | exact Hsegs].
Defined.

Lemma hex_to_emoji_first_failure_witness :
  split dash (str "1F600-FFFFFFFFF-ZZ") = [str "1F600"] ++ str "FFFFFFFFF" :: [str "ZZ"]
  ∧ plain_int16 (str "FFFFFFFFF") = Some 0xFFFFFFFFF
  ∧ hex_to_emoji plain_int16 (str "1F600-FFFFFFFFF-ZZ") = Raise OverflowError.
Proof.
  split_and!; [reflexivity..|].
  destruct (hex_to_emoji_first_failure plain_int16 (str "1F600-FFFFFFFFF-ZZ")
              [str "1F600"] (str "FFFFFFFFF") [str "ZZ"]) as [_ Hrange].
  - reflexivity.
  - repeat constructor. exists 0x1F600. split; [reflexivity | lia].
  - apply (Hrange 0xFFFFFFFFF); [reflexivity | lia].
Defined.

Lemma hex_to_emoji_glyph_length_witness :
  hex_to_emoji plain_int16 (str "1F1FA-1F1F8") = Ok [0x1F1FA; 0x1F1F8]
  ∧ length [0x1F1FA; 0x1F1F8] = S (count dash (str "1F1FA-1F1F8")).
Proof.
  split; [reflexivity|].
  apply (hex_to_emoji_glyph_length plain_int16 (str "1F1FA-1F1F8")). reflexivity.
Defined.

Lemma merge_keywords_first_entry_ignored_witness :
  (length [str "grinning_face"] ≤ 1)%nat
  ∧ merge_keywords plain_lower [str "grinning"] [str "grinning_face"]
    = merge_keywords plain_lower [str "grinning"] [].
Proof.
  split; [simpl; lia|].
  destruct (merge_keywords_first_entry_ignored plain_lower [str "grinning"])
    as [_ Hshort].
  apply Hshort. simpl. lia.
Defined.

Lemma merge_keywords_no_underscore_witness :
  str "thumbs up" ∈ merge_keywords plain_lower [str "thumbs_up"] []
  ∧ underscore ∉ str "thumbs up".
Proof.
  assert (Hin : str "thumbs up" ∈ merge_keywords plain_lower [str "thumbs_up"] []).
  { apply list_elem_of_In. vm_compute. auto. }
  split; [exact Hin|].
  exact (merge_keywords_no_underscore plain_lower _ _ _ Hin).
Defined.

Lemma merge_keywords_members_witness :
  str "thumbs_up" ∈ [str "thumbs_up"]
  ∧ kw_clean plain_lower (str "thumbs_up")
    ∈ merge_keywords plain_lower [str "thumbs_up"] [str "x"; str "Like"].
Proof.
  assert (Hin : str "thumbs_up" ∈ [str "thumbs_up"]) by apply list_elem_of_here.
  split; [exact Hin|].
  destruct (merge_keywords_members plain_lower [str "thumbs_up"]
              [str "x"; str "Like"]) as (Hshort & _ & _).
  apply Hshort. exact Hin.
Defined.

Lemma sort_order_preserved_witness :
  StronglySorted Z.le
    ((λ entry, get (Raw.sort_order entry) 9999) <$> [grinning_raw; flag_raw])
  ∧ ∃ out, build_emoji_list plain_lower plain_int16 [grinning_raw; flag_raw]
             grinning_lib = Ok out
           ∧ StronglySorted Z.le (Out.sortOrder <$> out).
Proof.
  assert (Hsorted : StronglySorted Z.le
    ((λ entry, get (Raw.sort_order entry) 9999) <$> [grinning_raw; flag_raw])).
  { repeat constructor. simpl. lia. }
  split; [exact Hsorted|].
  exact (sort_order_preserved plain_lower plain_int16 _ grinning_lib Hsorted).
Defined.

Lemma output_lower_case_witness :
  build_emoji_list plain_lower plain_int16 [grinning_raw] grinning_lib
  = Ok [grinning_out]
  ∧ grinning_out ∈ [grinning_out]
  ∧ (∀ c, c ∈ Out.name grinning_out → ¬ (65 ≤ c ≤ 90)).
Proof.
  assert (Hin : grinning_out ∈ [grinning_out]) by apply list_elem_of_here.
  split_and!; [reflexivity | exact Hin |].
  apply (output_lower_case plain_lower plain_int16 plain_lower_no_capital
           [grinning_raw] grinning_lib [grinning_out] grinning_out);
    [reflexivity | exact Hin].
Defined.

Lemma skin_tone_test_sound_witness :
  Forall (λ seg, is_hex seg = true) (split dash (str "1F44B-1F3FF"))
  ∧ has_skin_tone (str "1F44B-1F3FF") = true
  ∧ hex_to_emoji plain_int16 (str "1F44B-1F3FF") = Ok [0x1F44B; 0x1F3FF]
  ∧ ∃ c, c ∈ [0x1F44B; 0x1F3FF] ∧ 0x1F3FB ≤ c ≤ 0x1F3FF.
Proof.
  assert (Hplain : Forall (λ seg, is_hex seg = true)
                          (split dash (str "1F44B-1F3FF"))).
  { repeat constructor. }
  split_and!; [exact Hplain | reflexivity | reflexivity |].
  apply (skin_tone_test_sound plain_int16 plain_int16_hex (str "1F44B-1F3FF"));
    [exact Hplain | reflexivity | reflexivity].
Defined.
